(** * class-adapter-file: the record store of cmd/adapter/main.go

    A shallow embedding of the five RPC methods of [server] (List, Get,
    Create, Update, Delete) over a model of the embedded ordered key-value
    engine, and the properties of the key encoding, of record
    reconstruction and of error suppression.

    Go strings are byte sequences: they are Rocq [string]s (lists of 8-bit
    [ascii]).  The engine state is a finite map from keys to values; its
    iterator visits the keys in byte-lexicographic order. *)

From Stdlib Require Import ZArith String Ascii.
From stdpp Require Import gmap strings list sorting.

Local Open Scope string_scope.
Local Open Scope Z_scope.

(** ** Go built-ins used by the source *)

Module go.

(** A Go [error] value, identified with its message ([err.Error()]). *)
Definition error := string.

Definition len (s : string) : Z := Z.of_nat (String.length s).

(** [s[:hi]]; [None] is the run-time panic "slice bounds out of range". *)
Definition slice_to (s : string) (hi : Z) : option string :=
  if decide (0 ≤ hi ≤ len s) then Some (substring 0 (Z.to_nat hi) s) else None.

(** [s[lo:]]; [None] is the run-time panic "slice bounds out of range". *)
Definition slice_from (s : string) (lo : Z) : option string :=
  if decide (0 ≤ lo ≤ len s)
  then Some (substring (Z.to_nat lo) (String.length s - Z.to_nat lo) s)
  else None.

(** [strings.LastIndex(s, substr)]: the index of the last occurrence of
    [substr] in [s], or -1.  [last_index_from i s substr acc] scans the
    suffix [s] that starts at index [i], [acc] being the last match seen
    before it. *)
Fixpoint last_index_from (i : Z) (s substr : string) (acc : Z) : Z :=
  let acc' := if String.prefix substr s then i else acc in
  match s with
  | EmptyString => acc'
  | String _ s' => last_index_from (i + 1) s' substr acc'
  end.

Definition LastIndex (s substr : string) : Z :=
  last_index_from 0 s substr (-1).

End go.

(** ** The protocol messages (package pb) *)

Module pb.

Record Class := mkClass { Id : string; Name : string; Semester : string }.

(** [Get] reads [in.Id] and, in its error log line, [in.Name]. *)
Record GetRequest := mkGetRequest { GetRequest_Id : string; GetRequest_Name : string }.

Record ListRequest := mkListRequest { }.

Record Classes := mkClasses { Classes_ : list Class }.

Record Empty := mkEmpty { }.

Definition with_Name (c : Class) (v : string) : Class :=
  {| Id := Id c; Name := v; Semester := Semester c |}.

Definition with_Semester (c : Class) (v : string) : Class :=
  {| Id := Id c; Name := Name c; Semester := v |}.

#[global] Instance Class_eq_dec : EqDecision Class.
Proof. solve_decision. Defined.

End pb.

(** ** The embedded engine (package badger)

    The engine is a collaborator of the program: what main.go relies on is
    modelled here.  The database is a finite map; a transaction works on a
    view of it; [View] runs a read-only closure, [Update] runs a closure and
    commits its writes unless the closure returned an error.  Every engine
    call that returns an [error] in Go may fail: which calls fail, and with
    what error, is given by a fault table [F], the behaviour of the engine
    and of the disk under it. *)

Module badger.

Abbreviation DB := (gmap string string).

(** The fallible engine calls of main.go. *)
Inductive call :=
| TxnGet (k : string)
| ItemValue (k : string)
| TxnSet (k v : string)
| TxnDelete (k : string)
| TxnCommit.

Definition faults := call → option go.error.

(** The engine serves the calls [cs]: none of them fails on its own. *)
Definition serves (F : faults) (cs : list call) : Prop :=
  ∀ c, c ∈ cs → F c = None.

(** The engine that never fails on its own. *)
Definition sound : faults := λ _, None.

Definition ErrKeyNotFound : go.error := "Key not found".

(** The result of running a closure: it returns normally, returns an
    error, or panics.  The state reached is kept in the first two cases:
    what a closure assigned to captured variables before it returned an
    error stays assigned. *)
Inductive res (S A : Type) :=
| Ok (s : S) (a : A)
| Fail (s : S) (e : go.error)
| Panic (msg : string).
Arguments Ok {S A} s a.
Arguments Fail {S A} s e.
Arguments Panic {S A} msg.

(** A closure [func(txn *badger.Txn) error] that captures variables of
    type [V]: a computation on the transaction's view of the database and
    on the captured variables. *)
Definition Tx (V A : Type) : Type := DB * V → res (DB * V) A.

#[global] Instance Tx_ret {V} : MRet (Tx V) := λ A a s, Ok s a.

#[global] Instance Tx_bind {V} : MBind (Tx V) := λ A B k m s,
  match m s with
  | Ok s' a => k a s'
  | Fail s' e => Fail s' e
  | Panic msg => Panic msg
  end.

Definition panic {V A} (msg : string) : Tx V A := λ _, Panic msg.

(** Read and assign the captured variables. *)
Definition vars {V} : Tx V V := λ s, Ok s s.2.
Definition assign {V} (v : V) : Tx V unit := λ s, Ok (s.1, v) tt.

(** [if err != nil { return f(err) }] around a call. *)
Definition wrap {V A} (f : go.error → go.error) (m : Tx V A) : Tx V A := λ s,
  match m s with
  | Fail s' e => Fail s' (f e)
  | r => r
  end.

Abbreviation Item := (string * string)%type.
Definition Key (item : Item) : string := item.1.

Section Engine.
Variable F : faults.
Context {V : Type}.

(** [txn.Get(key)] *)
Definition Get (key : string) : Tx V Item := λ s,
  match F (TxnGet key) with
  | Some e => Fail s e
  | None =>
      match s.1 !! key with
      | Some v => Ok s (key, v)
      | None => Fail s ErrKeyNotFound
      end
  end.

(** [item.Value(fn)] *)
Definition Value (item : Item) (fn : string → Tx V unit) : Tx V unit := λ s,
  match F (ItemValue item.1) with
  | Some e => Fail s e
  | None => fn item.2 s
  end.

(** [txn.Set(key, val)] *)
Definition Set_ (key val : string) : Tx V unit := λ s,
  match F (TxnSet key val) with
  | Some e => Fail s e
  | None => Ok (<[key:=val]> s.1, s.2) tt
  end.

(** [txn.Delete(key)]: deleting an absent key is not an error. *)
Definition Delete (key : string) : Tx V unit := λ s,
  match F (TxnDelete key) with
  | Some e => Fail s e
  | None => Ok (delete key s.1, s.2) tt
  end.

(** [db.View(fn)]: the closure runs on the database as it is; the
    captured variables and the closure's error are what is left. *)
Definition View (db : DB) (fn : Tx V unit) (v : V) : res V unit :=
  match fn (db, v) with
  | Ok s _ => Ok s.2 tt
  | Fail s e => Fail s.2 e
  | Panic msg => Panic msg
  end.

(** [db.Update(fn)]: the writes are committed when the closure returns
    nil and the commit succeeds, and discarded otherwise.  The state
    of the result is the database and the captured variables. *)
Definition Update (db : DB) (fn : Tx V unit) (v : V) : res (DB * V) unit :=
  match fn (db, v) with
  | Ok s _ =>
      match F TxnCommit with
      | Some e => Fail (db, s.2) e
      | None => Ok s tt
      end
  | Fail s e => Fail (db, s.2) e
  | Panic msg => Panic msg
  end.

End Engine.

(** The order of the iterator: byte-lexicographic on keys. *)
Definition key_le (a b : Item) : Prop := String.le a.1 b.1.

#[global] Instance key_le_dec a b : Decision (key_le a b).
Proof. unfold key_le. apply _. Defined.

(** The items [it.Rewind(); it.Valid(); it.Next()] visits, in order. *)
Definition scan (db : DB) : list Item := merge_sort key_le (map_to_list db).

(** [for it.Rewind(); it.Valid(); it.Next() { body(it.Item()) }] *)
Fixpoint for_each {V} (items : list Item) (body : Item → Tx V unit) : Tx V unit :=
  match items with
  | [] => mret tt
  | item :: rest => body item ;; for_each rest body
  end.

End badger.

(** ** The service (cmd/adapter/main.go)

    A method takes the engine's behaviour [F], the database and its
    request; the [ctx] argument of the Go methods is not read by any of
    them and is left out. *)

Definition port := ":50051".
Definition delim := ".".

Module server.
Import badger.

(** What a method call leaves behind: the response and the error it
    returns to the RPC layer, the database, and the lines it logged. *)
Record reply (A : Type) := Reply {
  resp : A;
  err : option go.error;
  db_after : DB;
  logged : list string
}.
Arguments Reply {A} resp err db_after logged.
Arguments resp {A} r.
Arguments err {A} r.
Arguments db_after {A} r.
Arguments logged {A} r.

(** A method call returns, or panics: a panic in a handler is not
    recovered and no response is sent. *)
Inductive outcome (A : Type) :=
| Returned (r : reply A)
| Panicked (msg : string).
Arguments Returned {A} r.
Arguments Panicked {A} msg.

(** The variables of [List]'s closure: the captured [cs.Classes] and the
    local [classMap]. *)
Record ListVars := mkListVars {
  Classes : list pb.Class;
  classMap : gmap string nat
}.

(** [k[:i]] and [k[i:]] inside a closure. *)
Definition slice {V} (o : option string) : Tx V string :=
  match o with
  | Some s => mret s
  | None => panic "slice bounds out of range"
  end.

(** [if index, ok = classMap[id]; !ok { ... }]: the index of the record
    of [id], after appending a placeholder when [id] is new. *)
Definition placeholder (id : string) : Tx ListVars nat := λ s,
  match classMap s.2 !! id with
  | Some index => Ok s index
  | None =>
      let index := length (Classes s.2) in
      Ok (s.1, {| Classes := Classes s.2 ++ [pb.mkClass id "" ""];
                  classMap := <[id:=index]> (classMap s.2) |}) index
  end.

(** [cs.Classes[index].f = v], with the bounds check of indexing. *)
Definition set_field (index : nat) (f : pb.Class → pb.Class) : Tx ListVars unit := λ s,
  match Classes s.2 !! index with
  | Some c =>
      Ok (s.1, {| Classes := <[index:=f c]> (Classes s.2);
                  classMap := classMap s.2 |}) tt
  | None => Panic "index out of range"
  end.

Section Methods.
Variable F : faults.

(** The body of the loop of [List], lines 43-72. *)
Definition List_item (item : Item) : Tx ListVars unit :=
  let k := Key item in
  let lastIndex := go.LastIndex k "." in
  id ← slice (go.slice_to k lastIndex);
  param ← slice (go.slice_from k (lastIndex + 1));
  index ← placeholder id;
  Value F item (λ v,
    if decide (param = "Name") then set_field index (λ c, pb.with_Name c v)
    else if decide (param = "Semester") then set_field index (λ c, pb.with_Semester c v)
    else mret tt).

(** The closure of [List], lines 34-76. *)
Definition List_txn : Tx ListVars unit := λ s,
  (vs ← vars;
   assign {| Classes := Classes vs; classMap := ∅ |};;
   for_each (scan s.1) List_item) s.

Definition List (db : DB) (in_ : pb.ListRequest) : outcome pb.Classes :=
  let log := ["List called"] in
  match View db List_txn {| Classes := []; classMap := ∅ |} with
  | Ok vs _ => Returned (Reply (pb.mkClasses (Classes vs)) None db log)
  | Fail vs e =>
      Returned (Reply (pb.mkClasses (Classes vs)) None db
                  (log ++ ["Error listing from class database: " +:+ e]))
  | Panic msg => Panicked msg
  end.

(** The closure of [Get], lines 90-116; the captured variable is [c]. *)
Definition Get_txn (in_ : pb.GetRequest) : Tx pb.Class unit :=
  n ← badger.Get F ((pb.GetRequest_Id in_ +:+ delim) +:+ "Name");
  Value F n (λ val, c ← vars; assign (pb.with_Name c val));;
  s ← badger.Get F ((pb.GetRequest_Id in_ +:+ delim) +:+ "Semester");
  Value F s (λ val, c ← vars; assign (pb.with_Semester c val));;
  mret tt.

Definition Get (db : DB) (in_ : pb.GetRequest) : outcome pb.Class :=
  let log := ["Get called for Id " +:+ pb.GetRequest_Id in_] in
  let c := {| pb.Id := pb.GetRequest_Id in_; pb.Name := ""; pb.Semester := "" |} in
  match View db (Get_txn in_) c with
  | Ok c _ => Returned (Reply c None db log)
  | Fail c e =>
      Returned (Reply c None db
                  (log ++ ["Error reading " +:+ pb.GetRequest_Name in_
                           +:+ " from class database: " +:+ e]))
  | Panic msg => Panicked msg
  end.

(** The closure of [Create], lines 125-139, and of [Update], lines
    150-164: the two are the same text. *)
Definition put_txn (in_ : pb.Class) : Tx unit unit :=
  wrap (λ e, "put " +:+ pb.Id in_ +:+ delim +:+ "Name: " +:+ e)
       (Set_ F ((pb.Id in_ +:+ delim) +:+ "Name") (pb.Name in_));;
  wrap (λ e, "put " +:+ pb.Id in_ +:+ delim +:+ "Semester: " +:+ e)
       (Set_ F ((pb.Id in_ +:+ delim) +:+ "Semester") (pb.Semester in_));;
  mret tt.

Definition Create (db : DB) (in_ : pb.Class) : outcome pb.Class :=
  let log := ["Create called for Id " +:+ pb.Id in_] in
  match badger.Update F db (put_txn in_) tt with
  | Ok s _ =>
      Returned (Reply in_ None s.1
                  (log ++ ["Added " +:+ pb.Name in_ +:+ " to class database"]))
  | Fail s e =>
      Returned (Reply in_ None s.1
                  (log ++ ["Error saving " +:+ pb.Name in_ +:+ " to class database: " +:+ e;
                           "Added " +:+ pb.Name in_ +:+ " to class database"]))
  | Panic msg => Panicked msg
  end.

Definition Update (db : DB) (in_ : pb.Class) : outcome pb.Class :=
  let log := ["Update called for Id " +:+ pb.Id in_] in
  match badger.Update F db (put_txn in_) tt with
  | Ok s _ =>
      Returned (Reply in_ None s.1
                  (log ++ ["Added " +:+ pb.Name in_ +:+ " to class database"]))
  | Fail s e =>
      Returned (Reply in_ None s.1
                  (log ++ ["Error saving " +:+ pb.Name in_ +:+ " to class database: " +:+ e;
                           "Added " +:+ pb.Name in_ +:+ " to class database"]))
  | Panic msg => Panicked msg
  end.

(** The closure of [Delete], lines 175-185. *)
Definition Delete_txn (in_ : pb.Class) : Tx unit unit :=
  wrap (λ e, "delete " +:+ pb.Id in_ +:+ ".Name: " +:+ e)
       (badger.Delete F (pb.Id in_ +:+ ".Name"));;
  wrap (λ e, "delete " +:+ pb.Id in_ +:+ ".Semester: " +:+ e)
       (badger.Delete F (pb.Id in_ +:+ ".Semester"));;
  mret tt.

Definition Delete (db : DB) (in_ : pb.Class) : outcome pb.Empty :=
  let log := ["Delete called for Id " +:+ pb.Id in_] in
  match badger.Update F db (Delete_txn in_) tt with
  | Ok s _ => Returned (Reply pb.mkEmpty None s.1 log)
  | Fail s e =>
      Returned (Reply pb.mkEmpty None s.1
                  (log ++ ["Error saving " +:+ pb.Name in_ +:+ " to class database: " +:+ e]))
  | Panic msg => Panicked msg
  end.

End Methods.

End server.


(** ** Vocabulary of the properties *)

Import badger server.

(** The key of a field of a record, as lines 91, 103, 127, 133, 152 and
    158 write it: [in.Id + delim + fieldName]. *)
Definition encode (id fieldName : string) : string := (id +:+ delim) +:+ fieldName.

(** The split of a key into id and field name, lines 46-48 of [List];
    [None] is the panic of the slice expressions. *)
Definition decode (k : string) : option (string * string) :=
  let lastIndex := go.LastIndex k "." in
  match go.slice_to k lastIndex, go.slice_from k (lastIndex + 1) with
  | Some id, Some param => Some (id, param)
  | _, _ => None
  end.

(** The separator occurs in [s]. *)
Fixpoint has_delim (s : string) : bool :=
  match s with
  | EmptyString => false
  | String c s' => if Ascii.eqb c "." then true else has_delim s'
  end.

(** Every key of the database contains the separator. *)
Definition well_keyed (db : DB) : Prop :=
  ∀ k, is_Some (db !! k) → has_delim k = true.

(** The calls of the engine made by [Create] and [Update] of a record, by
    [Delete] of a record, by [Get] of an id and by [List]. *)
Definition put_calls (R : pb.Class) : list call :=
  [TxnSet (pb.Id R +:+ ".Name") (pb.Name R);
   TxnSet (pb.Id R +:+ ".Semester") (pb.Semester R);
   TxnCommit].

Definition Delete_calls (id : string) : list call :=
  [TxnDelete (id +:+ ".Name"); TxnDelete (id +:+ ".Semester"); TxnCommit].

Definition Get_calls (id : string) : list call :=
  [TxnGet (id +:+ ".Name"); ItemValue (id +:+ ".Name");
   TxnGet (id +:+ ".Semester"); ItemValue (id +:+ ".Semester")].

Definition List_calls (db : DB) : list call :=
  (λ item, ItemValue (Key item)) <$> map_to_list db.

(** The database after a committed [Create] or [Update]. *)
Definition put (R : pb.Class) (db : DB) : DB :=
  <[pb.Id R +:+ ".Semester" := pb.Semester R]> (<[pb.Id R +:+ ".Name" := pb.Name R]> db).

(** The database a call leaves, when it returns. *)
Definition after {A} (o : outcome A) : option DB :=
  match o with
  | Returned r => Some (db_after r)
  | Panicked _ => None
  end.

(** [n] calls of [Update] with the same record, one after the other. *)
Definition Updates (F : faults) (R : pb.Class) (n : nat) (db : DB) : option DB :=
  Nat.iter n (λ o, db' ← o; after (server.Update F db' R)) (Some db).

(** Calls of [Create], one after the other. *)
Fixpoint Creates (F : faults) (Rs : list pb.Class) (db : DB) : option DB :=
  match Rs with
  | [] => Some db
  | R :: Rs' => db' ← after (server.Create F db R); Creates F Rs' db'
  end.

(** The databases the service produces: [main] opens a fresh directory, so
    the database starts empty and changes through the methods only. *)
Inductive reachable (F : faults) : DB → Prop :=
| reach_open : reachable F ∅
| reach_Create db R r :
    reachable F db → server.Create F db R = Returned r → reachable F (db_after r)
| reach_Update db R r :
    reachable F db → server.Update F db R = Returned r → reachable F (db_after r)
| reach_Delete db R r :
    reachable F db → server.Delete F db R = Returned r → reachable F (db_after r).

(** The record that a database holds for an id: the values of its Name
    and Semester keys, empty where the key is absent. *)
Definition record_of (db : DB) (id : string) : pb.Class :=
  pb.mkClass id (default "" (db !! (id +:+ ".Name")))
             (default "" (db !! (id +:+ ".Semester"))).

(** The response and the error of a call, when it returns. *)
Definition answer {A} (o : outcome A) : option (A * option go.error) :=
  match o with
  | Returned r => Some (resp r, err r)
  | Panicked _ => None
  end.

(** The error a transaction returned, if any. *)
Definition txn_error {S A} (r : res S A) : option go.error :=
  match r with
  | Fail _ e => Some e
  | _ => None
  end.

(** A line that ends with the message of [e] was logged. *)
Definition logs_error (l : list string) (e : go.error) : Prop :=
  ∃ pre, pre +:+ e ∈ l.

(** A method call suppressed what its transaction [txn] returned: it
    returned a response with a nil error, having logged the error of the
    transaction if there was one. *)
Definition suppressed {S A B} (txn : res S A) (o : outcome B) : Prop :=
  ∃ r, o = Returned r ∧ err r = None ∧
       ∀ e, txn_error txn = Some e → logs_error (logged r) e.

(** The indices of [classMap] are indices of [cs.Classes]. *)
Definition bounded (vs : ListVars) : Prop :=
  ∀ id i, classMap vs !! id = Some i → (i < length (Classes vs))%nat.

(** The invariant of the loop of [List], [seen] being the pairs visited:
    [classMap] maps the id of each record to its index; the ids are the
    ids of the keys visited; each record is the record of its id. *)
Definition List_inv (seen : DB) (vs : ListVars) : Prop :=
  (∀ id i, classMap vs !! id = Some i ↔
           ∃ c, Classes vs !! i = Some c ∧ pb.Id c = id) ∧
  (∀ id, is_Some (classMap vs !! id) ↔
         ∃ k param, is_Some (seen !! k) ∧ decode k = Some (id, param)) ∧
  (∀ i c, Classes vs !! i = Some c → c = record_of seen (pb.Id c)).

(** The engine serves every read: no lookup and no value read fails on
    its own. *)
Definition reads (F : faults) : Prop :=
  ∀ k, F (TxnGet k) = None ∧ F (ItemValue k) = None.

(** The records of the database are whole: every key is the Name key or the
    Semester key of an id, and both keys of that id are stored. *)
Definition whole (db : DB) : Prop :=
  ∀ k, is_Some (db !! k) →
       ∃ id, (k = id +:+ ".Name" ∨ k = id +:+ ".Semester") ∧
             is_Some (db !! (id +:+ ".Name")) ∧
             is_Some (db !! (id +:+ ".Semester")).

(** The database after a committed [Delete] of an id. *)
Definition remove (id : string) (db : DB) : DB :=
  delete (id +:+ ".Semester") (delete (id +:+ ".Name") db).

(** * Properties *)

(** ** Keys *)

Lemma append_assoc (a b c : string) : (a +:+ b) +:+ c = a +:+ (b +:+ c).
Proof.
  induction a as [|x a IH]; [done|].
  change (String x ((a +:+ b) +:+ c) = String x (a +:+ (b +:+ c))).
  by rewrite IH.
Qed.

Lemma key_Name (id : string) : (id +:+ delim) +:+ "Name" = id +:+ ".Name".
Proof. apply append_assoc. Qed.

Lemma key_Semester (id : string) : (id +:+ delim) +:+ "Semester" = id +:+ ".Semester".
Proof. apply append_assoc. Qed.

Lemma key_Name_Semester (id : string) : id +:+ ".Name" ≠ id +:+ ".Semester".
Proof. intros H. by apply (inj (String.append id)) in H. Qed.

(** ** Running the closures *)

Lemma serves_sound cs : serves sound cs.
Proof. by intros c _. Qed.

Lemma serves_cons F c cs : serves F (c :: cs) ↔ F c = None ∧ serves F cs.
Proof.
  unfold serves. split.
  - intros H. split; [apply H; left | intros c' Hc'; apply H; by right].
  - intros [H1 H2] c' [->|Hc']%elem_of_cons; auto.
Qed.

Ltac serve :=
  repeat match goal with
  | H : serves _ (_ :: _) |- _ => apply serves_cons in H as [? H]
  | H : serves _ (_ ++ _) |- _ => cbn [app] in H
  end.

Ltac served :=
  repeat match goal with
  | H : ?F ?c = None |- context [?F ?c] => rewrite !H; simpl
  end.

Ltac run :=
  cbv [server.Get server.Create server.Update server.Delete
       Get_txn put_txn Delete_txn
       badger.View badger.Update badger.Get Value Set_ badger.Delete
       wrap vars assign mbind mret Tx_bind Tx_ret fst snd];
  rewrite ?key_Name, ?key_Semester.

Lemma Create_served F db R :
  serves F (put_calls R) →
  ∃ log, server.Create F db R = Returned (Reply R None (put R db) log).
Proof. intros H. unfold put_calls in H. serve. run. served. eauto. Qed.

Lemma Update_served F db R :
  serves F (put_calls R) →
  ∃ log, server.Update F db R = Returned (Reply R None (put R db) log).
Proof. intros H. unfold put_calls in H. serve. run. served. eauto. Qed.

Lemma Delete_served F db R :
  serves F (Delete_calls (pb.Id R)) →
  ∃ log, server.Delete F db R =
         Returned (Reply pb.mkEmpty None
                     (delete (pb.Id R +:+ ".Semester") (delete (pb.Id R +:+ ".Name") db)) log).
Proof. intros H. unfold Delete_calls in H. serve. run. served. eauto. Qed.

(** What the closure of [Get] leaves in [c], case by case: the Name key
    cannot be read; the Name key is read and the Semester key cannot; both
    are read. *)
Lemma Get_cases F db in_ :
  let id := pb.GetRequest_Id in_ in
  ∃ r, server.Get F db in_ = Returned r ∧ err r = None ∧ db_after r = db ∧
    match F (TxnGet (id +:+ ".Name")), db !! (id +:+ ".Name"), F (ItemValue (id +:+ ".Name")) with
    | None, Some n, None =>
        match F (TxnGet (id +:+ ".Semester")), db !! (id +:+ ".Semester"),
              F (ItemValue (id +:+ ".Semester")) with
        | None, Some s, None => resp r = pb.mkClass id n s
        | _, _, _ => resp r = pb.mkClass id n ""
        end
    | _, _, _ => resp r = pb.mkClass id "" ""
    end.
Proof.
  intros id. subst id. run.
  destruct (F (TxnGet _)) as [e|]; simpl; [by eexists|].
  destruct (db !! _) as [n|]; simpl; [|by eexists].
  destruct (F (ItemValue _)) as [e|]; simpl; [by eexists|].
  destruct (F (TxnGet _)) as [e|]; simpl; [by eexists|].
  destruct (db !! _) as [s|]; simpl; [|by eexists].
  destruct (F (ItemValue _)) as [e|]; simpl; by eexists.
Qed.

(** ** Round trip *)

(** C1. For every record R, [Create] of R and then [Get] of R's id on the
    database that [Create] left returns a record with R's name and R's
    semester, the engine serving the calls of the two methods. *)
Theorem Create_Get_roundtrip (F : faults) (db : DB) (R : pb.Class) (nm : string) :
  serves F (put_calls R ++ Get_calls (pb.Id R)) →
  ∃ r1 r2,
    server.Create F db R = Returned r1 ∧
    server.Get F (db_after r1) (pb.mkGetRequest (pb.Id R) nm) = Returned r2 ∧
    pb.Name (resp r2) = pb.Name R ∧
    pb.Semester (resp r2) = pb.Semester R.
Proof.
  intros H. unfold put_calls, Get_calls in H. serve.
  destruct (Create_served F db R) as [log Hc].
  { unfold put_calls. by rewrite !serves_cons. }
  destruct (Get_cases F (put R db) (pb.mkGetRequest (pb.Id R) nm)) as (r2 & Hg & _ & _ & Hr).
  simpl in Hr. unfold put in Hr.
  rewrite lookup_insert_ne, !lookup_insert_eq in Hr by (symmetry; apply key_Name_Semester).
  revert Hr. served. intros Hr.
  exists (Reply R None (put R db) log), r2.
  split_and!; [done..| |]; by rewrite Hr.
Qed.

Lemma Create_Get_roundtrip_witness :
  ∃ r1 r2,
    server.Create sound ∅ (pb.mkClass "cs101" "Intro to CS" "Fall2023") = Returned r1 ∧
    server.Get sound (db_after r1) (pb.mkGetRequest "cs101" "") = Returned r2 ∧
    pb.Name (resp r2) = "Intro to CS" ∧
    pb.Semester (resp r2) = "Fall2023".
Proof.
  apply (Create_Get_roundtrip sound ∅ (pb.mkClass "cs101" "Intro to CS" "Fall2023") "").
  apply serves_sound.
Defined.

(** ** Delete, then Get *)

(** C3. For every id, after [Delete] of the record with that id, [Get] of
    the id returns the record with that id and empty name and semester,
    and a nil error, the engine serving the calls of [Delete]. *)
Theorem Delete_then_Get (F : faults) (db : DB) (R : pb.Class) (nm : string) :
  serves F (Delete_calls (pb.Id R)) →
  ∃ r1 r2,
    server.Delete F db R = Returned r1 ∧
    server.Get F (db_after r1) (pb.mkGetRequest (pb.Id R) nm) = Returned r2 ∧
    resp r2 = pb.mkClass (pb.Id R) "" "" ∧
    err r2 = None.
Proof.
  intros H.
  destruct (Delete_served F db R H) as [log Hd].
  set (db' := delete (pb.Id R +:+ ".Semester") (delete (pb.Id R +:+ ".Name") db)) in *.
  destruct (Get_cases F db' (pb.mkGetRequest (pb.Id R) nm)) as (r2 & Hg & He & _ & Hr).
  simpl in Hr.
  assert (db' !! (pb.Id R +:+ ".Name") = None) as Hn.
  { unfold db'. rewrite lookup_delete_ne by (symmetry; apply key_Name_Semester).
    apply lookup_delete_eq. }
  rewrite Hn in Hr.
  exists (Reply pb.mkEmpty None db' log), r2. split_and!; [done..| |done].
  by repeat case_match.
Qed.

Lemma Delete_then_Get_witness :
  ∃ r1 r2,
    server.Delete sound (put (pb.mkClass "cs101" "Intro to CS" "Fall2023") ∅)
      (pb.mkClass "cs101" "" "") = Returned r1 ∧
    server.Get sound (db_after r1) (pb.mkGetRequest "cs101" "") = Returned r2 ∧
    resp r2 = pb.mkClass "cs101" "" "" ∧
    err r2 = None.
Proof.
  apply (Delete_then_Get sound _ (pb.mkClass "cs101" "" "") "").
  apply serves_sound.
Defined.

(** ** Get on a missing key *)

(** C4, as stated, fails: with the Name key stored and the Semester key
    missing, the read transaction of [Get] aborts with "Key not found" and
    the record returned carries the stored name. *)
Lemma Get_missing_Semester_keeps_Name :
  let db : DB := {["a.Name" := "Algebra"]} in
  let in_ := pb.mkGetRequest "a" "" in
  db !! "a.Semester" = None ∧
  View db (Get_txn sound in_) (pb.mkClass "a" "" "") =
    Fail (pb.mkClass "a" "Algebra" "") ErrKeyNotFound ∧
  ∃ r, server.Get sound db in_ = Returned r ∧
       resp r = pb.mkClass "a" "Algebra" "" ∧
       pb.Name (resp r) ≠ "".
Proof.
  split_and!; [by vm_compute..|].
  eexists. split_and!; [by vm_compute|done|done].
Qed.

(** C4, amended. When a field key of the id is missing, [Get] returns,
    with a nil error, a record with the requested id and an empty semester;
    its name is empty when the Name key is missing, and is the stored name
    when the Name key is stored and read and only the Semester key is
    missing. *)
Theorem Get_missing_key (F : faults) (db : DB) (in_ : pb.GetRequest) :
  let id := pb.GetRequest_Id in_ in
  db !! (id +:+ ".Name") = None ∨ db !! (id +:+ ".Semester") = None →
  ∃ r, server.Get F db in_ = Returned r ∧
       err r = None ∧
       pb.Id (resp r) = id ∧
       pb.Semester (resp r) = "" ∧
       (db !! (id +:+ ".Name") = None → pb.Name (resp r) = "") ∧
       (∀ n, db !! (id +:+ ".Name") = Some n →
             serves F [TxnGet (id +:+ ".Name"); ItemValue (id +:+ ".Name")] →
             pb.Name (resp r) = n).
Proof.
  intros id Hmiss.
  destruct (Get_cases F db in_) as (r & Hg & He & _ & Hr). fold id in Hr.
  exists r. split_and!; [done..| | | |].
  - by repeat case_match; rewrite Hr.
  - repeat case_match; rewrite Hr; try done. destruct Hmiss; congruence.
  - intros Hn. rewrite Hn in Hr. by repeat case_match; rewrite Hr.
  - intros n Hn Hs. serve. rewrite Hn in Hr. revert Hr. served.
    intros Hr. by repeat case_match; rewrite Hr.
Qed.

Lemma Get_missing_key_witness :
  ∃ r, server.Get sound {["a.Name" := "Algebra"]} (pb.mkGetRequest "a" "") = Returned r ∧
       err r = None ∧
       pb.Id (resp r) = "a" ∧
       pb.Semester (resp r) = "" ∧
       (({["a.Name" := "Algebra"]} : DB) !! "a.Name" = None → pb.Name (resp r) = "") ∧
       (∀ n, ({["a.Name" := "Algebra"]} : DB) !! "a.Name" = Some n →
             serves sound [TxnGet "a.Name"; ItemValue "a.Name"] →
             pb.Name (resp r) = n).
Proof.
  apply (Get_missing_key sound {["a.Name" := "Algebra"]} (pb.mkGetRequest "a" "")).
  right. reflexivity.
Defined.

(** ** The id of the record of Get *)

(** C10. For every requested id and every database, [Get] returns a record
    whose id is the requested id, whatever the engine does. *)
Theorem Get_keeps_id (F : faults) (db : DB) (in_ : pb.GetRequest) :
  ∃ r, server.Get F db in_ = Returned r ∧ pb.Id (resp r) = pb.GetRequest_Id in_.
Proof.
  destruct (Get_cases F db in_) as (r & Hg & _ & _ & Hr).
  exists r. split; [done|]. by repeat case_match; rewrite Hr.
Qed.

(** ** Update and Create *)

(** The write transaction of [Create] and [Update] either commits both
    fields or leaves the database as it was; which of the two depends on
    the engine and on the record, not on the database. *)
Lemma put_txn_cases F R :
  (∀ db, ∃ s, badger.Update F db (put_txn F R) () = Ok (put R db, s) ()) ∨
  (∃ e, ∀ db, ∃ s, badger.Update F db (put_txn F R) () = Fail (db, s) e).
Proof.
  run.
  destruct (F (TxnSet (pb.Id R +:+ ".Name") (pb.Name R))) eqn:H1; simpl.
  { right. eauto. }
  destruct (F (TxnSet (pb.Id R +:+ ".Semester") (pb.Semester R))) eqn:H2; simpl.
  { right. eauto. }
  destruct (F TxnCommit) eqn:H3; simpl.
  { right. eauto. }
  left. intros db. by exists ().
Qed.

Lemma Create_Update_same F db R :
  ∃ db' l,
    (db' = put R db ∨ db' = db) ∧
    server.Create F db R =
      Returned (Reply R None db' (("Create called for Id " +:+ pb.Id R) :: l)) ∧
    server.Update F db R =
      Returned (Reply R None db' (("Update called for Id " +:+ pb.Id R) :: l)).
Proof.
  unfold server.Create, server.Update.
  destruct (put_txn_cases F R) as [H|[e H]]; destruct (H db) as [s ->]; simpl;
    eauto 10.
Qed.

(** C8. [Update] is [Create]: for every record and every database the two
    return, with the same nil error, the record they were given and leave
    the same database; the database is written whether or not it holds the
    record (with a serving engine it is the database given with the two
    fields of the record put in it), and the lines logged after the first
    one are the same. *)
Theorem Update_is_Create (F : faults) (db : DB) (R : pb.Class) :
  ∃ r1 r2,
    server.Create F db R = Returned r1 ∧
    server.Update F db R = Returned r2 ∧
    resp r1 = R ∧ resp r2 = R ∧
    err r1 = err r2 ∧
    db_after r1 = db_after r2 ∧
    tail (logged r1) = tail (logged r2) ∧
    (serves F (put_calls R) → db_after r2 = put R db).
Proof.
  destruct (Create_Update_same F db R) as (db' & l & Hdb & Hc & Hu).
  do 2 eexists. split_and!; [exact Hc|exact Hu|done..|].
  intros Hs. destruct (Update_served F db R Hs) as [log Hu'].
  rewrite Hu in Hu'. by simplify_eq/=.
Qed.

Lemma Update_is_Create_witness :
  ∃ r1 r2,
    server.Create sound ∅ (pb.mkClass "cs101" "Intro to CS" "Fall2023") = Returned r1 ∧
    server.Update sound ∅ (pb.mkClass "cs101" "Intro to CS" "Fall2023") = Returned r2 ∧
    resp r1 = pb.mkClass "cs101" "Intro to CS" "Fall2023" ∧
    resp r2 = pb.mkClass "cs101" "Intro to CS" "Fall2023" ∧
    err r1 = err r2 ∧
    db_after r1 = db_after r2 ∧
    tail (logged r1) = tail (logged r2) ∧
    db_after r2 = put (pb.mkClass "cs101" "Intro to CS" "Fall2023") ∅.
Proof.
  destruct (Update_is_Create sound ∅ (pb.mkClass "cs101" "Intro to CS" "Fall2023"))
    as (r1 & r2 & H1 & H2 & H3 & H4 & H5 & H6 & H7 & H8).
  exists r1, r2. split_and!; [done..|]. apply H8, serves_sound.
Defined.

Lemma put_put (R : pb.Class) (db : DB) : put R (put R db) = put R db.
Proof.
  unfold put. apply map_eq. intros k.
  rewrite !lookup_insert. repeat case_decide; done.
Qed.

Lemma Updates_S F R n db :
  Updates F R (S n) db = db' ← Updates F R n db; after (server.Update F db' R).
Proof. done. Qed.

(** ** Idempotence of Update *)

(** C9. For every record R and every database, one call of [Update] with R
    leaves a database, and any number of further calls with R leave the
    same database. *)
Theorem Update_idempotent (F : faults) (db : DB) (R : pb.Class) (n : nat) :
  ∃ db1, Updates F R 1 db = Some db1 ∧ Updates F R (S n) db = Some db1.
Proof.
  assert ((∀ d, after (server.Update F d R) = Some (put R d)) ∨
          (∀ d, after (server.Update F d R) = Some d)) as Hall.
  { unfold server.Update.
    destruct (put_txn_cases F R) as [H|[e H]]; [left|right];
      intros d; by destruct (H d) as [s ->]. }
  destruct Hall as [Hall|Hall].
  - exists (put R db). split; [apply Hall|].
    induction n as [|n IH]; [apply Hall|].
    rewrite Updates_S, IH. simpl. by rewrite Hall, put_put.
  - exists db. split; [apply Hall|].
    induction n as [|n IH]; [apply Hall|].
    rewrite Updates_S, IH. simpl. by rewrite Hall.
Qed.

(** ** The key codec *)

Lemma length_append (a b : string) :
  String.length (a +:+ b) = (String.length a + String.length b)%nat.
Proof.
  induction a as [|x a IH]; [done|].
  change (S (String.length (a +:+ b)) = S (String.length a + String.length b)).
  by rewrite IH.
Qed.

Lemma substring_all (s : string) : substring 0 (String.length s) s = s.
Proof. induction s as [|x s IH]; [done|]. simpl. by rewrite IH. Qed.

Lemma substring_append_l (a s : string) : substring 0 (String.length a) (a +:+ s) = a.
Proof.
  induction a as [|x a IH]; [by destruct s|].
  change (String x (substring 0 (String.length a) (a +:+ s)) = String x a).
  by rewrite IH.
Qed.

Lemma substring_append_r (a s : string) (n m : nat) :
  substring (String.length a + n) m (a +:+ s) = substring n m s.
Proof. induction a as [|x a IH]; [done|]. exact IH. Qed.

Lemma prefix_delim (c : ascii) (s : string) :
  String.prefix "." (String c s) = Ascii.eqb c ".".
Proof.
  change (String.prefix "." (String c s))
    with (if ascii_dec "." c then String.prefix "" s else false).
  destruct (ascii_dec "." c) as [<-|Hne].
  - by destruct s.
  - symmetry. apply Ascii.eqb_neq. congruence.
Qed.

Lemma last_index_append (a s : string) (i acc : Z) :
  go.last_index_from i (a +:+ s) "." acc =
  go.last_index_from (i + go.len a) s "." (go.last_index_from i a "." acc).
Proof.
  revert i acc. induction a as [|x a IH]; intros i acc.
  - change ("" +:+ s) with s. unfold go.len. simpl. by rewrite Z.add_0_r.
  - change (String x a +:+ s) with (String x (a +:+ s)).
    cbn [go.last_index_from]. rewrite !prefix_delim, IH.
    f_equal. unfold go.len. cbn [String.length]. lia.
Qed.

Lemma last_index_no_delim (s : string) (i acc : Z) :
  has_delim s = false → go.last_index_from i s "." acc = acc.
Proof.
  revert i acc. induction s as [|x s IH]; intros i acc H; [done|].
  cbn [go.last_index_from]. rewrite prefix_delim.
  simpl in H. destruct (Ascii.eqb x "."); [done|]. by apply IH.
Qed.

Lemma LastIndex_encode (id f : string) :
  has_delim f = false → go.LastIndex (id +:+ "." +:+ f) "." = go.len id.
Proof.
  intros H. unfold go.LastIndex. rewrite last_index_append.
  change ("." +:+ f) with (String "." f).
  cbn [go.last_index_from]. rewrite prefix_delim. simpl Ascii.eqb. cbv iota.
  by rewrite last_index_no_delim.
Qed.

Lemma decode_append (id f : string) :
  has_delim f = false → decode (id +:+ "." +:+ f) = Some (id, f).
Proof.
  intros H. unfold decode. rewrite (LastIndex_encode _ _ H).
  unfold go.slice_to, go.slice_from, go.len.
  rewrite length_append. change (String.length ("." +:+ f)) with (S (String.length f)).
  rewrite !decide_True by lia.
  rewrite Nat2Z.id, substring_append_l.
  replace (Z.to_nat (Z.of_nat (String.length id) + 1)) with (String.length id + 1)%nat by lia.
  rewrite substring_append_r.
  replace (String.length id + S (String.length f) - (String.length id + 1))%nat
    with (String.length f) by lia.
  change ("." +:+ f) with (String "." f). simpl substring.
  by rewrite substring_all.
Qed.

Lemma has_delim_split (k : string) :
  has_delim k = true → ∃ a b, k = a +:+ "." +:+ b ∧ has_delim b = false.
Proof.
  induction k as [|x k IH]; [done|]. intros H.
  destruct (has_delim k) eqn:Hk.
  - destruct (IH eq_refl) as (a & b & -> & Hb). by exists (String x a), b.
  - simpl in H. rewrite Hk in H.
    destruct (Ascii.eqb_spec x ".") as [->|]; [|done]. by exists "", k.
Qed.

Lemma has_delim_append (a b : string) : has_delim (a +:+ "." +:+ b) = true.
Proof.
  induction a as [|x a IH]; [done|].
  change (String x a +:+ "." +:+ b) with (String x (a +:+ "." +:+ b)).
  simpl. rewrite IH. by destruct (Ascii.eqb x ".").
Qed.

Lemma decode_None (k : string) : has_delim k = false → decode k = None.
Proof.
  intros H. unfold decode, go.LastIndex. rewrite last_index_no_delim by done.
  unfold go.slice_to. by rewrite decide_False by lia.
Qed.

Lemma decode_Some (k id param : string) :
  decode k = Some (id, param) ↔ k = id +:+ "." +:+ param ∧ has_delim param = false.
Proof.
  split.
  - intros H. destruct (has_delim k) eqn:Hk.
    + destruct (has_delim_split k Hk) as (a & b & -> & Hb).
      rewrite decode_append in H by done. by simplify_eq.
    + by rewrite decode_None in H.
  - intros [-> H]. by apply decode_append.
Qed.

Lemma decode_is_Some (k : string) : has_delim k = true → is_Some (decode k).
Proof.
  intros (a & b & -> & Hb)%has_delim_split. rewrite decode_append by done. eauto.
Qed.

Lemma encode_append (id f : string) : encode id f = id +:+ "." +:+ f.
Proof. apply append_assoc. Qed.



(** ** The loop of List *)

Lemma List_item_decode F k v s :
  List_item F (k, v) s =
  match decode k with
  | Some (id, param) =>
      (index ← placeholder id;
       Value F (k, v) (λ v,
         if decide (param = "Name") then set_field index (λ c, pb.with_Name c v)
         else if decide (param = "Semester")
              then set_field index (λ c, pb.with_Semester c v)
              else mret ())) s
  | None => Panic "slice bounds out of range"
  end.
Proof.
  unfold List_item, decode, Key. simpl.
  destruct (go.slice_to _ _) as [id|]; [|done].
  by destruct (go.slice_from _ _) as [param|].
Qed.

Lemma placeholder_bounded db vs id :
  bounded vs →
  ∃ index vs1, placeholder id (db, vs) = Ok (db, vs1) index ∧
               bounded vs1 ∧ (index < length (Classes vs1))%nat.
Proof.
  intros Hb. unfold placeholder. simpl.
  destruct (classMap vs !! id) as [i|] eqn:Hi.
  - exists i, vs. destruct vs. eauto.
  - eexists _, _. split; [done|]. unfold bounded. simpl. split.
    + intros id' i. rewrite length_app. simpl.
      rewrite lookup_insert. case_decide; [intros; simplify_eq; lia|].
      intros ?%Hb. lia.
    + rewrite length_app. simpl. lia.
Qed.

Lemma set_field_bounded db vs index f :
  bounded vs → (index < length (Classes vs))%nat →
  ∃ vs', set_field index f (db, vs) = Ok (db, vs') () ∧ bounded vs'.
Proof.
  intros Hb Hi. unfold set_field. simpl.
  destruct (lookup_lt_is_Some_2 _ _ Hi) as [c ->].
  eexists. split; [done|]. intros id i. simpl. rewrite length_insert. apply Hb.
Qed.

(** On a key with the separator the body of the loop returns, nil or an
    error of the engine, and does not panic. *)
Lemma List_item_returns F db vs k v :
  has_delim k = true → bounded vs →
  ∃ vs', bounded vs' ∧
    (List_item F (k, v) (db, vs) = Ok (db, vs') () ∨
     ∃ e, List_item F (k, v) (db, vs) = Fail (db, vs') e).
Proof.
  intros Hk Hb. rewrite List_item_decode.
  destruct (decode_is_Some k Hk) as [[id param] ->].
  destruct (placeholder_bounded db vs id Hb) as (index & vs1 & Hp & Hb1 & Hi).
  cbv [mbind Tx_bind]. rewrite Hp. unfold Value. simpl.
  destruct (F (ItemValue k)) as [e|]; [by eauto|].
  destruct (set_field_bounded db vs1 index (λ c, pb.with_Name c v) Hb1 Hi)
    as (vsN & HN & HbN).
  destruct (set_field_bounded db vs1 index (λ c, pb.with_Semester c v) Hb1 Hi)
    as (vsS & HS & HbS).
  repeat case_decide; eauto.
Qed.

Lemma for_each_returns F db items :
  Forall (λ item, has_delim (Key item) = true) items →
  ∀ vs, bounded vs →
  ∃ vs', for_each items (List_item F) (db, vs) = Ok (db, vs') () ∨
         ∃ e, for_each items (List_item F) (db, vs) = Fail (db, vs') e.
Proof.
  induction 1 as [|[k v] items Hk _ IH]; intros vs Hb.
  - exists vs. by left.
  - cbn [for_each]. cbv [mbind Tx_bind].
    destruct (List_item_returns F db vs k v Hk Hb) as (vs1 & Hb1 & [->| [e ->]]).
    + apply IH, Hb1.
    + eauto.
Qed.

Lemma scan_elem_of db k v : (k, v) ∈ scan db ↔ db !! k = Some v.
Proof. unfold scan. by rewrite merge_sort_Permutation, elem_of_map_to_list. Qed.

Lemma scan_NoDup db : NoDup (scan db).*1.
Proof. unfold scan. rewrite merge_sort_Permutation. apply NoDup_fst_map_to_list. Qed.

Lemma scan_well_keyed db :
  well_keyed db → Forall (λ item, has_delim (Key item) = true) (scan db).
Proof.
  intros Hwk. apply Forall_forall. intros [k v] Hkv%scan_elem_of.
  apply Hwk. by exists v.
Qed.

Ltac logged pre :=
  exists pre; rewrite ?append_assoc; simpl; by repeat constructor.

Lemma List_suppresses F db in_ :
  well_keyed db →
  suppressed (View db (List_txn F) {| Classes := []; classMap := ∅ |})
             (server.List F db in_).
Proof.
  intros Hwk. unfold suppressed, server.List.
  assert (∀ msg, View db (List_txn F) {| Classes := []; classMap := ∅ |} ≠ Panic msg)
    as Hnp.
  { intros msg. unfold View, List_txn.
    cbv [mbind mret Tx_bind Tx_ret vars assign]. simpl.
    destruct (for_each_returns F db (scan db) (scan_well_keyed db Hwk)
                {| Classes := []; classMap := ∅ |}) as (vs' & [->|[e ->]]); [|done..].
    by intros id i. }
  destruct (View db (List_txn F) _) as [vs []|vs e|msg].
  - eexists. by split_and!.
  - eexists. split_and!; [done..|]. intros e' [= <-].
    logged "Error listing from class database: ".
  - by destruct (Hnp msg).
Qed.

Lemma Get_suppresses F db in_ :
  suppressed (View db (Get_txn F in_) (pb.mkClass (pb.GetRequest_Id in_) "" ""))
             (server.Get F db in_).
Proof.
  unfold suppressed, server.Get.
  assert (∀ msg, View db (Get_txn F in_) (pb.mkClass (pb.GetRequest_Id in_) "" "")
                 ≠ Panic msg) as Hnp.
  { intros msg. run.
    destruct (F (TxnGet _)); simpl; [done|].
    destruct (db !! _); simpl; [|done].
    destruct (F (ItemValue _)); simpl; [done|].
    destruct (F (TxnGet _)); simpl; [done|].
    destruct (db !! _); simpl; [|done].
    by destruct (F (ItemValue _)). }
  destruct (View db (Get_txn F in_) _) as [c []|c e|msg].
  - eexists. by split_and!.
  - eexists. split_and!; [done..|]. intros e' [= <-].
    logged ("Error reading " +:+ pb.GetRequest_Name in_ +:+ " from class database: ").
  - by destruct (Hnp msg).
Qed.

Lemma put_txn_no_panic F db R msg : badger.Update F db (put_txn F R) () ≠ Panic msg.
Proof.
  destruct (put_txn_cases F R) as [H|[e H]]; by destruct (H db) as [s ->].
Qed.

Lemma Create_suppresses F db in_ :
  suppressed (badger.Update F db (put_txn F in_) ()) (server.Create F db in_).
Proof.
  unfold suppressed, server.Create.
  pose proof (put_txn_no_panic F db in_) as Hnp.
  destruct (badger.Update F db (put_txn F in_) ()) as [s []|s e|msg].
  - eexists. by split_and!.
  - eexists. split_and!; [done..|]. intros e' [= <-].
    logged ("Error saving " +:+ pb.Name in_ +:+ " to class database: ").
  - by destruct (Hnp msg).
Qed.

Lemma Update_suppresses F db in_ :
  suppressed (badger.Update F db (put_txn F in_) ()) (server.Update F db in_).
Proof.
  unfold suppressed, server.Update.
  pose proof (put_txn_no_panic F db in_) as Hnp.
  destruct (badger.Update F db (put_txn F in_) ()) as [s []|s e|msg].
  - eexists. by split_and!.
  - eexists. split_and!; [done..|]. intros e' [= <-].
    logged ("Error saving " +:+ pb.Name in_ +:+ " to class database: ").
  - by destruct (Hnp msg).
Qed.

Lemma Delete_suppresses F db in_ :
  suppressed (badger.Update F db (Delete_txn F in_) ()) (server.Delete F db in_).
Proof.
  unfold suppressed, server.Delete.
  assert (∀ msg, badger.Update F db (Delete_txn F in_) () ≠ Panic msg) as Hnp.
  { intros msg. run.
    destruct (F (TxnDelete _)); simpl; [done|].
    destruct (F (TxnDelete _)); simpl; [done|].
    by destruct (F TxnCommit). }
  destruct (badger.Update F db (Delete_txn F in_) ()) as [s []|s e|msg].
  - eexists. by split_and!.
  - eexists. split_and!; [done..|]. intros e' [= <-].
    logged ("Error saving " +:+ pb.Name in_ +:+ " to class database: ").
  - by destruct (Hnp msg).
Qed.

(** ** The databases of the service *)

Lemma well_keyed_put R db : well_keyed db → well_keyed (put R db).
Proof.
  intros Hwk k. unfold put. rewrite !lookup_insert_is_Some'.
  intros [<-|[<-|?]]; [apply has_delim_append..|by apply Hwk].
Qed.

Lemma well_keyed_delete k db : well_keyed db → well_keyed (delete k db).
Proof.
  intros Hwk k'. rewrite lookup_delete_is_Some. intros [_ ?]. by apply Hwk.
Qed.

Lemma Delete_after F db R r :
  server.Delete F db R = Returned r →
  db_after r = delete (pb.Id R +:+ ".Semester") (delete (pb.Id R +:+ ".Name") db) ∨
  db_after r = db.
Proof.
  run.
  destruct (F (TxnDelete _)); simpl; [intros; simplify_eq; by right|].
  destruct (F (TxnDelete _)); simpl; [intros; simplify_eq; by right|].
  destruct (F TxnCommit); simpl; intros; simplify_eq; auto.
Qed.

(** Every key of a database the service produced contains the separator. *)
Lemma reachable_well_keyed F db : reachable F db → well_keyed db.
Proof.
  induction 1 as [|db R r _ IH Hr|db R r _ IH Hr|db R r _ IH Hr].
  - intros k. rewrite lookup_empty. by intros [??].
  - destruct (Create_Update_same F db R) as (db' & l & Hdb & Hc & _).
    rewrite Hc in Hr. simplify_eq/=. destruct Hdb as [->| ->]; [by apply well_keyed_put|done].
  - destruct (Create_Update_same F db R) as (db' & l & Hdb & _ & Hu).
    rewrite Hu in Hr. simplify_eq/=. destruct Hdb as [->| ->]; [by apply well_keyed_put|done].
  - destruct (Delete_after F db R r Hr) as [-> | ->]; [|done].
    by do 2 apply well_keyed_delete.
Qed.

(** ** Error suppression *)

(** C2, as stated, fails: on a database with a key without the separator
    [List] does not return a response; the slice [k[:lastIndex]] with
    [lastIndex] -1 panics. *)
Lemma List_panics_without_separator :
  let db : DB := {["abc" := "v"]} in
  go.LastIndex "abc" "." = -1 ∧
  server.List sound db pb.mkListRequest = Panicked "slice bounds out of range" ∧
  ¬ ∃ r, server.List sound db pb.mkListRequest = Returned r ∧ err r = None.
Proof.
  split_and!; [by vm_compute..|].
  intros (r & Hr & _). vm_compute in Hr. discriminate.
Qed.

(** C2, amended. [Get], [Create], [Update] and [Delete] return a response
    with a nil error for every input and every database, and [List] does
    for every input and every database whose keys all contain the
    separator, whatever the engine does: the error of a failed
    transaction, "Key not found" among them, is logged and does not reach
    the caller. *)
Theorem methods_suppress_errors (F : faults) (db : DB) :
  (well_keyed db →
   ∀ in_, suppressed (View db (List_txn F) {| Classes := []; classMap := ∅ |})
                     (server.List F db in_)) ∧
  (∀ in_, suppressed (View db (Get_txn F in_) (pb.mkClass (pb.GetRequest_Id in_) "" ""))
                     (server.Get F db in_)) ∧
  (∀ in_, suppressed (badger.Update F db (put_txn F in_) ()) (server.Create F db in_)) ∧
  (∀ in_, suppressed (badger.Update F db (put_txn F in_) ()) (server.Update F db in_)) ∧
  (∀ in_, suppressed (badger.Update F db (Delete_txn F in_) ())
                     (server.Delete F db in_)).
Proof.
  split_and!.
  - intros Hwk in_. by apply List_suppresses.
  - intros in_. apply Get_suppresses.
  - intros in_. apply Create_suppresses.
  - intros in_. apply Update_suppresses.
  - intros in_. apply Delete_suppresses.
Qed.

(** The engine of the witness refuses every write and every commit; the
    database has a key without the separator beside one with it, and
    [List] is run on the part whose keys have the separator. *)
Lemma methods_suppress_errors_witness :
  let F : faults := λ c,
    match c with
    | TxnSet _ _ | TxnDelete _ | TxnCommit => Some "disk full"
    | _ => None
    end in
  let db : DB := {["a.Name" := "Algebra"]} in
  let db' : DB := {["a.Name" := "Algebra"; "abc" := "v"]} in
  (∀ in_, suppressed (View db (List_txn F) {| Classes := []; classMap := ∅ |})
                     (server.List F db in_)) ∧
  (∀ in_, suppressed (View db' (Get_txn F in_) (pb.mkClass (pb.GetRequest_Id in_) "" ""))
                     (server.Get F db' in_)) ∧
  (∀ in_, suppressed (badger.Update F db' (put_txn F in_) ()) (server.Create F db' in_)) ∧
  (∀ in_, suppressed (badger.Update F db' (put_txn F in_) ()) (server.Update F db' in_)) ∧
  (∀ in_, suppressed (badger.Update F db' (Delete_txn F in_) ())
                     (server.Delete F db' in_)).
Proof.
  intros F db db'.
  destruct (methods_suppress_errors F db) as (HL & _).
  destruct (methods_suppress_errors F db') as (_ & HG & HC & HU & HD).
  split_and!; [|exact HG|exact HC|exact HU|exact HD].
  apply HL. intros k [v Hk]. apply lookup_singleton_Some in Hk as [<- _]. reflexivity.
Defined.

(** ** Record reconstruction *)

Lemma decode_key_ne k id param id' f :
  decode k = Some (id, param) → has_delim f = false →
  (id', f) ≠ (id, param) → k ≠ id' +:+ "." +:+ f.
Proof. intros Hd Hf Hne ->. rewrite decode_append in Hd by done. congruence. Qed.

Lemma record_of_insert_other seen k v id param id' :
  decode k = Some (id, param) →
  id' ≠ id ∨ (param ≠ "Name" ∧ param ≠ "Semester") →
  record_of (<[k:=v]> seen) id' = record_of seen id'.
Proof.
  intros Hd Hne. unfold record_of.
  rewrite !lookup_insert_ne; [done|..].
  - apply (decode_key_ne k id param id' "Semester" Hd eq_refl).
    intros [= -> <-]. by destruct Hne as [?|[??]].
  - apply (decode_key_ne k id param id' "Name" Hd eq_refl).
    intros [= -> <-]. by destruct Hne as [?|[??]].
Qed.

Lemma record_of_insert_Name seen id v :
  record_of (<[id +:+ ".Name" := v]> seen) id = pb.with_Name (record_of seen id) v.
Proof.
  unfold record_of, pb.with_Name. simpl.
  rewrite lookup_insert_eq, lookup_insert_ne by apply key_Name_Semester. done.
Qed.

Lemma record_of_insert_Semester seen id v :
  record_of (<[id +:+ ".Semester" := v]> seen) id = pb.with_Semester (record_of seen id) v.
Proof.
  unfold record_of, pb.with_Semester. simpl.
  rewrite lookup_insert_eq, lookup_insert_ne by (symmetry; apply key_Name_Semester). done.
Qed.

(** The placeholder step: afterwards the record of [id] is at [index]. *)
Lemma placeholder_inv db seen vs id :
  List_inv seen vs →
  ∃ index vs1,
    placeholder id (db, vs) = Ok (db, vs1) index ∧
    classMap vs1 !! id = Some index ∧
    (∀ id' i, classMap vs1 !! id' = Some i ↔
              ∃ c, Classes vs1 !! i = Some c ∧ pb.Id c = id') ∧
    (∀ id', is_Some (classMap vs1 !! id') ↔
            id' = id ∨ ∃ k param, is_Some (seen !! k) ∧ decode k = Some (id', param)) ∧
    (∀ i c, Classes vs1 !! i = Some c → c = record_of seen (pb.Id c)).
Proof.
  intros (I1 & I2 & I3). unfold placeholder. simpl.
  destruct (classMap vs !! id) as [index|] eqn:Hid.
  - exists index, vs. split_and!; [by destruct vs|done..| |done].
    intros id'. rewrite I2. split; [by right|].
    intros [->|?]; [|done]. apply I2. by rewrite Hid.
  - eexists _, _. split; [done|]. simpl. split_and!.
    + apply lookup_insert_eq.
    + intros id' i. rewrite lookup_insert. case_decide as Hd; subst.
      * split.
        -- intros [= <-]. exists (pb.mkClass id' "" ""). split; [|done].
           rewrite lookup_app_r by lia. by rewrite Nat.sub_diag.
        -- intros (c & Hc & Hidc). f_equal.
           apply lookup_app_Some in Hc as [Hc|[Hlen Hc]].
           ++ assert (classMap vs !! pb.Id c = Some i) by (apply I1; eauto). congruence.
           ++ apply list_lookup_singleton_Some in Hc as [Hc _]. lia.
      * rewrite I1. split.
        -- intros (c & Hc & <-). exists c. split; [|done]. by apply lookup_app_l_Some.
        -- intros (c & Hc & <-). exists c. split; [|done].
           apply lookup_app_Some in Hc as [Hc|[Hlen Hc]]; [done|].
           apply list_lookup_singleton_Some in Hc as [_ <-]. done.
    + intros id'. rewrite lookup_insert_is_Some, I2. split.
      * intros [->|[_ ?]]; auto.
      * intros [->|?]; [by left|]. destruct (decide (id = id')); auto.
    + intros i c Hc. apply lookup_app_Some in Hc as [Hc|[Hlen Hc]]; [by eapply I3|].
      apply list_lookup_singleton_Some in Hc as [_ <-]. simpl.
      unfold record_of.
      assert (∀ f, has_delim f = false → seen !! (id +:+ "." +:+ f) = None) as Hnone.
      { intros f Hf. apply eq_None_not_Some. intros Hs.
        assert (is_Some (classMap vs !! id)) as [? ?]
          by (apply I2; eexists _, f; split; [done|by apply decode_append]).
        congruence. }
      pose proof (Hnone "Name" eq_refl) as HN.
      pose proof (Hnone "Semester" eq_refl) as HS.
      change (seen !! (id +:+ ".Name") = None) in HN.
      change (seen !! (id +:+ ".Semester") = None) in HS.
      by rewrite HN, HS.
Qed.

Lemma set_field_inv db vs1 index c0 f :
  (∀ id' i, classMap vs1 !! id' = Some i ↔
            ∃ c, Classes vs1 !! i = Some c ∧ pb.Id c = id') →
  Classes vs1 !! index = Some c0 →
  pb.Id (f c0) = pb.Id c0 →
  ∃ vs2,
    set_field index f (db, vs1) = Ok (db, vs2) () ∧
    classMap vs2 = classMap vs1 ∧
    Classes vs2 = <[index := f c0]> (Classes vs1) ∧
    (∀ id' i, classMap vs2 !! id' = Some i ↔
              ∃ c, Classes vs2 !! i = Some c ∧ pb.Id c = id').
Proof.
  intros I1 Hc0 Hf. unfold set_field. simpl. rewrite Hc0.
  eexists. split_and!; [done..|]. simpl.
  intros id' i. rewrite I1. split.
  - intros (c & Hc & <-). destruct (decide (index = i)) as [->|Hne].
    + exists (f c0). rewrite list_lookup_insert_eq by (by eapply lookup_lt_Some).
      split; [done|]. congruence.
    + exists c. by rewrite list_lookup_insert_ne.
  - intros (c & Hc & <-).
    apply list_lookup_insert_Some in Hc as [(-> & <- & _)|[Hne Hc]]; eauto.
Qed.

(** One turn of the loop of [List] on a key with the separator whose value
    the engine reads keeps the invariant, the pair being added to those
    visited. *)
Lemma List_item_inv F db seen vs k v :
  List_inv seen vs →
  has_delim k = true →
  F (ItemValue k) = None →
  ∃ vs', List_item F (k, v) (db, vs) = Ok (db, vs') () ∧
         List_inv (<[k:=v]> seen) vs'.
Proof.
  intros Hinv Hk HF. rewrite List_item_decode.
  destruct (decode_is_Some k Hk) as [[id param] Hd]. rewrite Hd.
  destruct (placeholder_inv db seen vs id Hinv) as (index & vs1 & Hp & Hid & I1 & I2 & I3).
  cbv [mbind Tx_bind]. rewrite Hp. unfold Value. simpl. rewrite HF.
  destruct (proj1 (I1 id index) Hid) as (c0 & Hc0 & Hidc0).
  pose proof (I3 _ _ Hc0) as Hrec0. rewrite Hidc0 in Hrec0.
  assert (∀ vs2, classMap vs2 = classMap vs1 →
     (∀ id' : string, is_Some (classMap vs2 !! id') ↔
        ∃ k' param', is_Some (<[k:=v]> seen !! k') ∧ decode k' = Some (id', param')))
    as I2'.
  { intros vs2 -> id'. rewrite I2. split.
    - intros [->|(k' & param' & Hs & Hd')].
      + exists k, param. by rewrite lookup_insert_eq.
      + exists k', param'. rewrite lookup_insert_is_Some'. auto.
    - intros (k' & param' & Hs & Hd').
      apply lookup_insert_is_Some' in Hs as [<-|Hs]; [left; congruence|eauto]. }
  assert (∀ i c, i ≠ index → Classes vs1 !! i = Some c →
                 c = record_of (<[k:=v]> seen) (pb.Id c)) as Hother.
  { intros i c Hne Hc. erewrite record_of_insert_other; [by eapply I3|done|].
    left. intros Heq. apply Hne.
    assert (classMap vs1 !! id = Some i) as Hi by (apply I1; eauto). congruence. }
  apply decode_Some in Hd as [Hkey Hparam].
  destruct (decide (param = "Name")) as [->|HnN];
    [|destruct (decide (param = "Semester")) as [->|HnS]].
  - destruct (set_field_inv db vs1 index c0 (λ c, pb.with_Name c v) I1 Hc0 eq_refl)
      as (vs2 & -> & Hmap & Hcls & I1').
    exists vs2. split; [done|]. split_and!; [done|by apply I2'|].
    intros i c. rewrite Hcls. intros Hc.
    apply list_lookup_insert_Some in Hc as [(-> & <- & _)|[Hne Hc]]; [|by eapply Hother].
    simpl. rewrite Hidc0. subst k. change (id +:+ "." +:+ "Name") with (id +:+ ".Name").
    by rewrite record_of_insert_Name, <- Hrec0.
  - destruct (set_field_inv db vs1 index c0 (λ c, pb.with_Semester c v) I1 Hc0 eq_refl)
      as (vs2 & -> & Hmap & Hcls & I1').
    exists vs2. split; [done|]. split_and!; [done|by apply I2'|].
    intros i c. rewrite Hcls. intros Hc.
    apply list_lookup_insert_Some in Hc as [(-> & <- & _)|[Hne Hc]]; [|by eapply Hother].
    simpl. rewrite Hidc0. subst k.
    change (id +:+ "." +:+ "Semester") with (id +:+ ".Semester").
    by rewrite record_of_insert_Semester, <- Hrec0.
  - exists vs1. split; [done|]. split_and!; [done|by apply I2'|].
    intros i c Hc. erewrite record_of_insert_other; [by eapply I3| |by right].
    apply decode_Some. eauto.
Qed.

Lemma for_each_inv F db items :
  Forall (λ item, has_delim (Key item) = true ∧ F (ItemValue (Key item)) = None) items →
  ∀ seen vs, List_inv seen vs →
  ∃ vs', for_each items (List_item F) (db, vs) = Ok (db, vs') () ∧
         List_inv (foldl (λ m item, <[item.1:=item.2]> m) seen items) vs'.
Proof.
  induction 1 as [|[k v] items [Hk HF] _ IH]; intros seen vs Hinv.
  - exists vs. by split.
  - cbn [for_each foldl]. cbv [mbind Tx_bind].
    destruct (List_item_inv F db seen vs k v Hinv Hk HF) as (vs1 & -> & Hinv1).
    apply IH, Hinv1.
Qed.

Lemma foldl_insert (items : list Item) (seen : DB) :
  foldl (λ m item, <[item.1:=item.2]> m) seen items =
  list_to_map (reverse items) ∪ seen.
Proof.
  revert seen. induction items as [|[k v] items IH]; intros seen; cbn [foldl].
  - rewrite reverse_nil, list_to_map_nil. by rewrite (left_id_L ∅ (∪)).
  - rewrite IH, reverse_cons, list_to_map_app. simpl.
    rewrite insert_empty, <- (assoc_L (∪)). by rewrite <- insert_union_singleton_l.
Qed.

Lemma foldl_insert_scan (db : DB) :
  foldl (λ m item, <[item.1:=item.2]> m) ∅ (scan db) = db.
Proof.
  rewrite foldl_insert, (right_id_L ∅ (∪)).
  rewrite <- (list_to_map_to_list db) at 2. apply list_to_map_proper.
  - rewrite fmap_reverse, reverse_Permutation. apply scan_NoDup.
  - rewrite reverse_Permutation. apply merge_sort_Permutation.
Qed.

Lemma List_inv_init : List_inv ∅ {| Classes := []; classMap := ∅ |}.
Proof.
  split_and!; simpl.
  - intros id i. rewrite lookup_empty, lookup_nil. split; [done|]. by intros (? & ? & _).
  - intros id. rewrite lookup_empty. split; [by intros [??]|].
    intros (k & ? & [??] & _). by rewrite lookup_empty in *.
  - intros i c. by rewrite lookup_nil.
Qed.

(** When the engine reads every value, [List] on a database whose keys
    contain the separator returns one record for each id that a key of the
    database splits to, no id twice, each record being the record of its
    id in the database. *)
Lemma List_served F db in_ :
  well_keyed db →
  serves F (List_calls db) →
  ∃ cs,
    server.List F db in_ = Returned (Reply (pb.mkClasses cs) None db ["List called"]) ∧
    NoDup (pb.Id <$> cs) ∧
    (∀ id, id ∈ pb.Id <$> cs ↔
           ∃ k param, is_Some (db !! k) ∧ decode k = Some (id, param)) ∧
    (∀ c, c ∈ cs → c = record_of db (pb.Id c)).
Proof.
  intros Hwk Hs.
  assert (Forall (λ item, has_delim (Key item) = true ∧ F (ItemValue (Key item)) = None)
                 (scan db)) as Hitems.
  { apply Forall_forall. intros [k v] Hkv%scan_elem_of. split.
    - apply Hwk. by exists v.
    - apply Hs. unfold List_calls. apply list_elem_of_fmap.
      exists (k, v). split; [done|]. by apply elem_of_map_to_list. }
  destruct (for_each_inv F db (scan db) Hitems _ _ List_inv_init) as (vs & Hrun & Hinv).
  rewrite foldl_insert_scan in Hinv. destruct Hinv as (I1 & I2 & I3).
  exists (Classes vs). split_and!.
  - unfold server.List, View, List_txn.
    cbv [mbind mret Tx_bind Tx_ret vars assign]. simpl. by rewrite Hrun.
  - apply NoDup_alt. intros i j id. rewrite !list_lookup_fmap.
    intros (c & Hc & ->)%fmap_Some (c' & Hc' & Hid)%fmap_Some.
    assert (classMap vs !! pb.Id c = Some i) as Hi by (apply I1; eauto).
    assert (classMap vs !! pb.Id c = Some j) as Hj by (apply I1; eauto).
    congruence.
  - intros id. rewrite <- I2, list_elem_of_fmap. split.
    + intros (c & -> & (i & Hc)%list_elem_of_lookup). exists i. apply I1. eauto.
    + intros [i Hi]. apply I1 in Hi as (c & Hc & <-). exists c. split; [done|].
      by eapply list_elem_of_lookup_2.
  - intros c (i & Hc)%list_elem_of_lookup. by eapply I3.
Qed.

(** ** List when a read fails *)

Lemma List_item_fault F db seen vs k v e :
  List_inv seen vs →
  has_delim k = true →
  F (ItemValue k) = Some e →
  ∃ vs1 id param,
    List_item F (k, v) (db, vs) = Fail (db, vs1) e ∧
    decode k = Some (id, param) ∧
    (∀ id' i, classMap vs1 !! id' = Some i ↔
              ∃ c, Classes vs1 !! i = Some c ∧ pb.Id c = id') ∧
    (∀ id', is_Some (classMap vs1 !! id') ↔
            id' = id ∨ ∃ k' param', is_Some (seen !! k') ∧ decode k' = Some (id', param')) ∧
    (∀ i c, Classes vs1 !! i = Some c → c = record_of seen (pb.Id c)).
Proof.
  intros Hinv Hk HF. rewrite List_item_decode.
  destruct (decode_is_Some k Hk) as [[id param] Hd]. rewrite Hd.
  destruct (placeholder_inv db seen vs id Hinv) as (index & vs1 & Hp & Hid & I1 & I2 & I3).
  cbv [mbind Tx_bind]. rewrite Hp. unfold Value. simpl. rewrite HF.
  by exists vs1, id, param.
Qed.

(** Whatever the engine does, the loop of [List] on keys with the separator
    ends with nil or with an error, having visited a first part [P] of the
    items: no id twice, every id from a key given, every record the record
    of its id among the pairs visited. *)
Lemma for_each_partial F db items :
  Forall (λ item, has_delim (Key item) = true) items →
  ∀ seen vs, List_inv seen vs →
  ∃ vs' P,
    (for_each items (List_item F) (db, vs) = Ok (db, vs') () ∨
     ∃ e, for_each items (List_item F) (db, vs) = Fail (db, vs') e) ∧
    P ⊆ items ∧
    (∀ id i, classMap vs' !! id = Some i ↔
             ∃ c, Classes vs' !! i = Some c ∧ pb.Id c = id) ∧
    (∀ id, is_Some (classMap vs' !! id) →
           ∃ k param, (is_Some (seen !! k) ∨ k ∈ items.*1) ∧ decode k = Some (id, param)) ∧
    (∀ i c, Classes vs' !! i = Some c →
            c = record_of (foldl (λ m item, <[item.1:=item.2]> m) seen P) (pb.Id c)).
Proof.
  induction 1 as [|[k v] items Hk _ IH]; intros seen vs Hinv.
  - exists vs, []. destruct Hinv as (I1 & I2 & I3). split_and!; [by left|done|done| |done].
    intros id (k & param & Hs & Hd)%I2. eauto.
  - cbn [for_each]. cbv [mbind Tx_bind].
    destruct (F (ItemValue k)) as [e|] eqn:HF.
    + destruct (List_item_fault F db seen vs k v e Hinv Hk HF)
        as (vs1 & id & param & -> & Hd & I1 & I2 & I3).
      exists vs1, []. split_and!; [by eauto|apply list_subseteq_nil|done| |done].
      intros id' [->|(k' & param' & Hs & Hd')]%I2.
      * exists k, param. split; [right; left|done].
      * eauto.
    + destruct (List_item_inv F db seen vs k v Hinv Hk HF) as (vs1 & -> & Hinv1).
      destruct (IH _ _ Hinv1) as (vs' & P & Hrun & HP & I1 & I2 & I3).
      exists vs', ((k, v) :: P). split_and!; [done| |done| |done].
      * intros x [->|Hx]%elem_of_cons; [left|right; by apply HP].
      * intros id (k' & param' & [Hs|Hin] & Hd')%I2.
        -- apply lookup_insert_is_Some' in Hs as [<-|Hs].
           ++ exists k, param'. split; [right; left|done].
           ++ eauto.
        -- exists k', param'. split; [right; by right|done].
Qed.

Lemma foldl_insert_lookup (P : list Item) (k v : string) :
  foldl (λ m item, <[item.1:=item.2]> m) (∅ : DB) P !! k = Some v → (k, v) ∈ P.
Proof.
  rewrite foldl_insert, (right_id_L ∅ (∪)).
  intros H%elem_of_list_to_map_2. by rewrite elem_of_reverse in H.
Qed.

(** ** Unknown fields *)

(** C6, as stated, fails: the database holds a pair whose key splits to the
    id a and the field name Other, and [List] does not return; another key
    of the database has no separator and the slice of line 47 panics. *)
Lemma List_unknown_field_panics :
  let db : DB := {["a.Other" := "x"; "abc" := "v"]} in
  db !! "a.Other" = Some "x" ∧
  decode "a.Other" = Some ("a", "Other") ∧
  server.List sound db pb.mkListRequest = Panicked "slice bounds out of range" ∧
  ¬ ∃ r, server.List sound db pb.mkListRequest = Returned r.
Proof.
  split_and!; [by vm_compute..|].
  intros (r & Hr). vm_compute in Hr. discriminate.
Qed.

(** C6, amended. On a database that holds a pair whose key splits to an id
    and a field name other than Name and Semester, the other keys
    containing the separator, [List] returns with a nil error, whatever
    the engine does, and the value of the pair is in no name and no
    semester: the name and the semester of every record returned are empty
    or stored in the database without that pair.  When the engine reads
    the values, every record returned is the record of its id in the
    database without that pair, a record of the id is returned, and it is
    the record with empty name and semester when the database holds
    neither the Name nor the Semester key of the id. *)
Theorem List_unknown_field (F : faults) (db : DB) (k v id f : string)
    (in_ : pb.ListRequest) :
  well_keyed (delete k db) →
  db !! k = Some v →
  decode k = Some (id, f) →
  f ≠ "Name" → f ≠ "Semester" →
  ∃ r cs,
    server.List F db in_ = Returned r ∧
    err r = None ∧
    resp r = pb.mkClasses cs ∧
    (∀ c, c ∈ cs →
       (pb.Name c = "" ∨ delete k db !! (pb.Id c +:+ ".Name") = Some (pb.Name c)) ∧
       (pb.Semester c = "" ∨
        delete k db !! (pb.Id c +:+ ".Semester") = Some (pb.Semester c))) ∧
    (serves F (List_calls db) →
     (∀ c, c ∈ cs → c = record_of (delete k db) (pb.Id c)) ∧
     (∃ c, c ∈ cs ∧ pb.Id c = id) ∧
     (db !! (id +:+ ".Name") = None → db !! (id +:+ ".Semester") = None →
      pb.mkClass id "" "" ∈ cs)).
Proof.
  intros Hwk' Hkv Hd HfN HfS.
  assert (well_keyed db) as Hwk.
  { intros k' Hk'. destruct (decide (k' = k)) as [->|Hne].
    - apply decode_Some in Hd as [-> _]. apply has_delim_append.
    - apply Hwk'. by rewrite lookup_delete_ne. }
  assert (∀ id', k ≠ id' +:+ ".Name" ∧ k ≠ id' +:+ ".Semester") as Hkne.
  { intros id'. split.
    - apply (decode_key_ne k id f id' "Name" Hd eq_refl). congruence.
    - apply (decode_key_ne k id f id' "Semester" Hd eq_refl). congruence. }
  destruct (for_each_partial F db (scan db) (scan_well_keyed db Hwk) _ _ List_inv_init)
    as (vs & P & Hrun & HP & I1 & I2 & I3).
  assert (∃ r, server.List F db in_ = Returned r ∧ resp r = pb.mkClasses (Classes vs) ∧
               err r = None) as (r & HL & Hr & He).
  { unfold server.List, View, List_txn.
    cbv [mbind mret Tx_bind Tx_ret vars assign]. simpl.
    destruct Hrun as [->|[e ->]]; by eexists. }
  exists r, (Classes vs). split_and!; [done..| |].
  - intros c (i & Hc)%list_elem_of_lookup.
    assert (∀ k' v', k' ≠ k →
              foldl (λ m item, <[item.1:=item.2]> m) (∅ : DB) P !! k' = Some v' →
              delete k db !! k' = Some v') as Hsub.
    { intros k' v' Hne Hkv'%foldl_insert_lookup. rewrite lookup_delete_ne by done.
      by apply scan_elem_of, HP. }
    destruct (Hkne (pb.Id c)) as [HnN HnS].
    split.
    + rewrite (I3 i c Hc) at 1 3. unfold record_of. simpl.
      destruct (foldl _ _ P !! (pb.Id c +:+ ".Name")) as [n|] eqn:Hn; [|by left].
      right. by apply Hsub.
    + rewrite (I3 i c Hc) at 1 3. unfold record_of. simpl.
      destruct (foldl _ _ P !! (pb.Id c +:+ ".Semester")) as [n|] eqn:Hn; [|by left].
      right. by apply Hsub.
  - intros Hs.
    destruct (List_served F db in_ Hwk Hs) as (cs & HL' & Hnd & Hids & Hrec).
    rewrite HL in HL'. injection HL' as ->. simpl in Hr. injection Hr as <-.
    assert (∃ c, c ∈ cs ∧ pb.Id c = id) as (c & Hc & Hidc).
    { assert (id ∈ pb.Id <$> cs) as (c & -> & Hc)%list_elem_of_fmap
        by (apply Hids; exists k, f; eauto).
      eauto. }
    split_and!; [|by eauto|].
    + intros c' Hc'. rewrite (Hrec c' Hc') at 1. unfold record_of.
      destruct (Hkne (pb.Id c')) as [HnN HnS].
      by rewrite !lookup_delete_ne.
    + intros HN HS. pose proof (Hrec c Hc) as Hcrec.
      rewrite Hidc in Hcrec. unfold record_of in Hcrec. rewrite HN, HS in Hcrec.
      clear Hidc. subst c. exact Hc.
Qed.

Lemma List_unknown_field_witness :
  ∃ r cs,
    server.List sound {["a.Other" := "x"]} pb.mkListRequest = Returned r ∧
    err r = None ∧
    resp r = pb.mkClasses cs ∧
    pb.mkClass "a" "" "" ∈ cs.
Proof.
  destruct (List_unknown_field sound {["a.Other" := "x"]} "a.Other" "x" "a" "Other"
              pb.mkListRequest) as (r & cs & HL & He & Hr & _ & Hserved).
  - intros k [v Hk]. by rewrite delete_singleton_eq, lookup_empty in Hk.
  - reflexivity.
  - reflexivity.
  - discriminate.
  - discriminate.
  - destruct (Hserved (serves_sound _)) as (_ & _ & Hin).
    exists r, cs. split_and!; [done..|]. apply Hin; reflexivity.
Defined.

(** ** List after Create *)

Lemma serves_app F cs1 cs2 : serves F (cs1 ++ cs2) ↔ serves F cs1 ∧ serves F cs2.
Proof.
  unfold serves. setoid_rewrite elem_of_app. split.
  - intros H. split; intros c Hc; apply H; auto.
  - intros [H1 H2] c [Hc|Hc]; auto.
Qed.

Lemma Creates_served F Rs db :
  Forall (λ R, serves F (put_calls R)) Rs →
  Creates F Rs db = Some (foldl (λ d R, put R d) db Rs).
Proof.
  intros H. revert db. induction H as [|R Rs HR _ IH]; intros db; [done|].
  cbn [Creates foldl]. destruct (Create_served F db R HR) as [log ->]. simpl.
  apply IH.
Qed.

(** [List] depends on the engine through the reads of the values only. *)
Lemma List_item_served F item s :
  F (ItemValue (Key item)) = None → List_item F item s = List_item sound item s.
Proof.
  intros HF. destruct item as [k v]. rewrite !List_item_decode.
  destruct (decode k) as [[id param]|]; [|done].
  cbv [mbind Tx_bind]. destruct (placeholder id s) as [s' index| |]; [|done..].
  unfold Value. simpl in *. by rewrite HF.
Qed.

Lemma for_each_served F items :
  Forall (λ item, F (ItemValue (Key item)) = None) items →
  ∀ s, for_each items (List_item F) s = for_each items (List_item sound) s.
Proof.
  induction 1 as [|item items HF _ IH]; intros s; [done|].
  cbn [for_each]. cbv [mbind Tx_bind]. rewrite (List_item_served F item s HF).
  destruct (List_item sound item s); [apply IH|done..].
Qed.

Lemma List_sound F db in_ :
  serves F (List_calls db) → server.List F db in_ = server.List sound db in_.
Proof.
  intros Hs. unfold server.List, View, List_txn.
  cbv [mbind mret Tx_bind Tx_ret vars assign]. simpl.
  rewrite for_each_served; [done|].
  apply Forall_forall. intros [k v] Hkv%scan_elem_of.
  apply Hs. unfold List_calls. apply list_elem_of_fmap.
  exists (k, v). split; [done|]. by apply elem_of_map_to_list.
Qed.

Lemma List_calls_empty : List_calls ∅ = [].
Proof. unfold List_calls. by rewrite map_to_list_empty. Qed.

Lemma List_calls_put R db c :
  c ∈ List_calls (put R db) →
  c = ItemValue (pb.Id R +:+ ".Name") ∨ c = ItemValue (pb.Id R +:+ ".Semester") ∨
  c ∈ List_calls db.
Proof.
  unfold List_calls. rewrite !list_elem_of_fmap.
  intros ([k v] & -> & Hkv%elem_of_map_to_list). unfold put in Hkv. simpl.
  apply lookup_insert_Some in Hkv as [[<- _]|[_ Hkv]]; [auto|].
  apply lookup_insert_Some in Hkv as [[<- _]|[_ Hkv]]; [auto|].
  right. right. exists (k, v). split; [done|]. by apply elem_of_map_to_list.
Qed.

(** C7. After [Create] of records with ids a, b and c, in any order, on
    the empty database, [List] returns exactly the three records, the one
    of a, the one of b and the one of c, each once and each with the name
    and the semester it was created with, the engine serving the calls
    of the methods. *)
Theorem List_after_Creates (F : faults) (n1 s1 n2 s2 n3 s3 : string)
    (Rs : list pb.Class) (in_ : pb.ListRequest) :
  Rs ≡ₚ [pb.mkClass "a" n1 s1; pb.mkClass "b" n2 s2; pb.mkClass "c" n3 s3] →
  serves F (put_calls (pb.mkClass "a" n1 s1) ++ put_calls (pb.mkClass "b" n2 s2) ++
            put_calls (pb.mkClass "c" n3 s3) ++
            (ItemValue <$> ["a.Name"; "a.Semester"; "b.Name"; "b.Semester";
                            "c.Name"; "c.Semester"])) →
  ∃ db r,
    Creates F Rs ∅ = Some db ∧
    server.List F db in_ = Returned r ∧
    err r = None ∧
    resp r = pb.mkClasses
               [pb.mkClass "a" n1 s1; pb.mkClass "b" n2 s2; pb.mkClass "c" n3 s3] ∧
    length (pb.Classes_ (resp r)) = 3%nat ∧
    NoDup (pb.Id <$> pb.Classes_ (resp r)).
Proof.
  intros Hperm Hs.
  apply serves_app in Hs as [Ha Hs]. apply serves_app in Hs as [Hb Hs].
  apply serves_app in Hs as [Hc Hs]. cbn [fmap list_fmap] in Hs. serve.
  symmetry in Hperm. apply permutations_Permutation in Hperm.
  assert (∃ db, Creates F Rs ∅ = Some db ∧
      answer (server.List sound db in_) =
        Some (pb.mkClasses [pb.mkClass "a" n1 s1; pb.mkClass "b" n2 s2;
                            pb.mkClass "c" n3 s3], None) ∧
      serves F (List_calls db)) as (db & HC & HL & HsL).
  { cbv [permutations interleave fmap list_fmap mbind list_bind app] in Hperm.
    repeat (apply elem_of_cons in Hperm as [->|Hperm]);
      [..|by apply elem_of_nil in Hperm].
    all: eexists; split; [apply Creates_served; by repeat constructor|].
    all: split; [by vm_compute|].
    all: cbn [foldl]; intros c Hin.
    all: repeat (apply List_calls_put in Hin as [->|[->|Hin]]; [assumption..|]).
    all: rewrite List_calls_empty in Hin; by apply elem_of_nil in Hin. }
  rewrite <- (List_sound F db in_ HsL) in HL.
  destruct (server.List F db in_) as [r|] eqn:Hr; [|by simpl in HL].
  exists db, r. simpl in HL. destruct r as [rs e d l]. simplify_eq/=.
  split_and!; [done..|].
  apply (bool_decide_unpack _). by vm_compute.
Qed.

Lemma List_after_Creates_witness :
  ∃ db r,
    Creates sound [pb.mkClass "c" "Calculus" "Fall"; pb.mkClass "a" "Algebra" "Spring";
                   pb.mkClass "b" "Biology" "Fall"] ∅ = Some db ∧
    server.List sound db pb.mkListRequest = Returned r ∧
    err r = None ∧
    resp r = pb.mkClasses
               [pb.mkClass "a" "Algebra" "Spring"; pb.mkClass "b" "Biology" "Fall";
                pb.mkClass "c" "Calculus" "Fall"] ∧
    length (pb.Classes_ (resp r)) = 3%nat ∧
    NoDup (pb.Id <$> pb.Classes_ (resp r)).
Proof.
  apply (List_after_Creates sound "Algebra" "Spring" "Biology" "Fall" "Calculus" "Fall").
  - apply Permutation_cons_append.
  - apply serves_sound.
Defined.

(** * Further properties of the code *)

(** ** The split of a key (List, lines 46-48) *)

(** X1. The split of a key panics exactly when the key has no separator;
    otherwise it gives an id and a field name that, joined by the
    separator, are the key, and the field name has no separator: the split
    is at the last one.  The id and the field name may be empty. *)
Theorem decode_cases (k : string) :
  (has_delim k = false ∧ go.LastIndex k "." = -1 ∧ decode k = None) ∨
  (has_delim k = true ∧
   ∃ id param, decode k = Some (id, param) ∧
               go.LastIndex k "." = go.len id ∧
               k = id +:+ "." +:+ param ∧
               has_delim param = false).
Proof.
  destruct (has_delim k) eqn:Hk; [right|left].
  - split; [done|]. destruct (has_delim_split k Hk) as (a & b & -> & Hb).
    exists a, b. split_and!; [by apply decode_append|by apply LastIndex_encode|done..].
  - split_and!; [done| |by apply decode_None].
    unfold go.LastIndex. by apply last_index_no_delim.
Qed.

Lemma key_inj (id id' f f' : string) :
  has_delim f = false → has_delim f' = false →
  id +:+ "." +:+ f = id' +:+ "." +:+ f' → id = id' ∧ f = f'.
Proof.
  intros Hf Hf' Heq.
  pose proof (decode_append id f Hf) as H1.
  rewrite Heq, decode_append in H1 by done. by simplify_eq.
Qed.

(** X2. The keys of two fields are equal only when the ids are equal and
    the field names are equal, for field names without the separator and
    ids of any form: no record's key is a key of another record. *)
Theorem encode_inj (id id' f f' : string) :
  has_delim f = false → has_delim f' = false →
  encode id f = encode id' f' → id = id' ∧ f = f'.
Proof. rewrite !encode_append. apply key_inj. Qed.

Lemma encode_inj_witness : "x.y" = "x.y" ∧ "Name" = "Name".
Proof. apply (encode_inj "x.y" "x.y" "Name" "Name"); reflexivity. Defined.

(** ** The write transactions (Create, Update, Delete) *)

Lemma Name_inj (id id' : string) : id +:+ ".Name" = id' +:+ ".Name" → id = id'.
Proof. intros H. by apply (key_inj id id' "Name" "Name"). Qed.

Lemma Semester_inj (id id' : string) : id +:+ ".Semester" = id' +:+ ".Semester" → id = id'.
Proof. intros H. by apply (key_inj id id' "Semester" "Semester"). Qed.

Lemma Name_ne_Semester (id id' : string) : id +:+ ".Name" ≠ id' +:+ ".Semester".
Proof. intros H. by destruct (key_inj id id' "Name" "Semester" eq_refl eq_refl H). Qed.

Lemma serves_put_dec F R :
  serves F (put_calls R) ∨ ¬ serves F (put_calls R).
Proof.
  unfold put_calls. rewrite !serves_cons.
  destruct (F (TxnSet _ (pb.Name R))), (F (TxnSet _ (pb.Semester R))), (F TxnCommit);
    try (right; by intros (? & ? & ? & _)).
  left. split_and!; [done..|]. by intros c Hc%elem_of_nil.
Qed.





Lemma serves_Delete_dec F id :
  serves F (Delete_calls id) ∨ ¬ serves F (Delete_calls id).
Proof.
  unfold Delete_calls. rewrite !serves_cons.
  destruct (F (TxnDelete (id +:+ ".Name"))), (F (TxnDelete (id +:+ ".Semester"))),
    (F TxnCommit); try (right; by intros (? & ? & ? & _)).
  left. split_and!; [done..|]. by intros c Hc%elem_of_nil.
Qed.

Lemma Delete_txn_result F db R :
  (serves F (Delete_calls (pb.Id R)) ∧
   badger.Update F db (Delete_txn F R) () = Ok (remove (pb.Id R) db, ()) ()) ∨
  (¬ serves F (Delete_calls (pb.Id R)) ∧
   ∃ e, badger.Update F db (Delete_txn F R) () = Fail (db, ()) e).
Proof.
  unfold Delete_calls. rewrite !serves_cons. run.
  destruct (F (TxnDelete (pb.Id R +:+ ".Name"))) eqn:H1; simpl.
  { right. split; [by intros (? & _)|eauto]. }
  destruct (F (TxnDelete (pb.Id R +:+ ".Semester"))) eqn:H2; simpl.
  { right. split; [by intros (? & ? & _)|eauto]. }
  destruct (F TxnCommit) eqn:H3; simpl.
  { right. split; [by intros (? & ? & ? & _)|eauto]. }
  left. split_and!; [done..| |done]. by intros c Hc%elem_of_nil.
Qed.




Lemma lookup_put_other R db id' :
  id' ≠ pb.Id R →
  put R db !! (id' +:+ ".Name") = db !! (id' +:+ ".Name") ∧
  put R db !! (id' +:+ ".Semester") = db !! (id' +:+ ".Semester").
Proof.
  intros Hne. unfold put. split; rewrite !lookup_insert_ne; try done.
  - intros H. by apply Name_inj in H.
  - intros H. symmetry in H. by apply Name_ne_Semester in H.
  - intros H. by apply Name_ne_Semester in H.
  - intros H. by apply Semester_inj in H.
Qed.

Lemma lookup_remove_other id db id' :
  id' ≠ id →
  remove id db !! (id' +:+ ".Name") = db !! (id' +:+ ".Name") ∧
  remove id db !! (id' +:+ ".Semester") = db !! (id' +:+ ".Semester").
Proof.
  intros Hne. unfold remove. split; rewrite !lookup_delete_ne; try done.
  - intros H. by apply Name_inj in H.
  - intros H. symmetry in H. by apply Name_ne_Semester in H.
  - intros H. by apply Name_ne_Semester in H.
  - intros H. by apply Semester_inj in H.
Qed.

(** [Get] reads the database at the two keys of the id only. *)
Lemma Get_ext F db1 db2 in_ :
  db1 !! (pb.GetRequest_Id in_ +:+ ".Name") = db2 !! (pb.GetRequest_Id in_ +:+ ".Name") →
  db1 !! (pb.GetRequest_Id in_ +:+ ".Semester") =
    db2 !! (pb.GetRequest_Id in_ +:+ ".Semester") →
  answer (server.Get F db1 in_) = answer (server.Get F db2 in_).
Proof.
  intros HN HS.
  destruct (Get_cases F db1 in_) as (r1 & -> & He1 & _ & Hr1).
  destruct (Get_cases F db2 in_) as (r2 & -> & He2 & _ & Hr2).
  simpl in *. rewrite HN, HS in Hr1. rewrite He1, He2. f_equal. f_equal.
  repeat case_match; congruence.
Qed.

(** X5. [Create], [Update] and [Delete] of a record touch the two keys of
    its id only: whatever the engine does, the keys of every other id hold
    what they held, and [Get] of every other id answers as before.  This
    holds for ids with separators in them as well. *)
Theorem other_ids_untouched (F : faults) (db : DB) (R : pb.Class) (in_ : pb.GetRequest) :
  pb.GetRequest_Id in_ ≠ pb.Id R →
  ∃ r1 r2 r3,
    server.Create F db R = Returned r1 ∧
    server.Update F db R = Returned r2 ∧
    server.Delete F db R = Returned r3 ∧
    ∀ d, d ∈ [db_after r1; db_after r2; db_after r3] →
      d !! (pb.GetRequest_Id in_ +:+ ".Name") = db !! (pb.GetRequest_Id in_ +:+ ".Name") ∧
      d !! (pb.GetRequest_Id in_ +:+ ".Semester") =
        db !! (pb.GetRequest_Id in_ +:+ ".Semester") ∧
      answer (server.Get F d in_) = answer (server.Get F db in_).
Proof.
  intros Hne.
  destruct (Create_Update_same F db R) as (d1 & l & Hd1 & Hc & Hu).
  assert (∃ r3, server.Delete F db R = Returned r3 ∧
                (db_after r3 = remove (pb.Id R) db ∨ db_after r3 = db))
    as (r3 & Hd & Hd3).
  { unfold server.Delete.
    destruct (Delete_txn_result F db R) as [[_ ->]|[_ [e ->]]]; simpl; eauto. }
  eexists _, _, r3. split_and!; [exact Hc|exact Hu|exact Hd|]. simpl.
  assert (∀ d, d = put R db ∨ d = remove (pb.Id R) db ∨ d = db →
    d !! (pb.GetRequest_Id in_ +:+ ".Name") = db !! (pb.GetRequest_Id in_ +:+ ".Name") ∧
    d !! (pb.GetRequest_Id in_ +:+ ".Semester") =
      db !! (pb.GetRequest_Id in_ +:+ ".Semester")) as Hkeys.
  { intros d [->|[->| ->]]; [by apply lookup_put_other|by apply lookup_remove_other|done]. }
  intros d Hd'.
  assert (d = put R db ∨ d = remove (pb.Id R) db ∨ d = db) as Hcase.
  { apply elem_of_cons in Hd' as [->|Hd']; [destruct Hd1; auto|].
    apply elem_of_cons in Hd' as [->|Hd']; [destruct Hd1; auto|].
    apply elem_of_cons in Hd' as [->|Hd']; [destruct Hd3; auto|].
    by apply elem_of_nil in Hd'. }
  destruct (Hkeys d Hcase) as [HN HS]. split_and!; [done..|].
  by apply Get_ext.
Qed.

Lemma other_ids_untouched_witness :
  ∃ r1 r2 r3,
    server.Create sound {["x.y.Name" := "Logic"]} (pb.mkClass "x" "Algebra" "Fall") =
      Returned r1 ∧
    server.Update sound {["x.y.Name" := "Logic"]} (pb.mkClass "x" "Algebra" "Fall") =
      Returned r2 ∧
    server.Delete sound {["x.y.Name" := "Logic"]} (pb.mkClass "x" "Algebra" "Fall") =
      Returned r3 ∧
    db_after r1 !! "x.y.Name" = Some "Logic" ∧
    db_after r3 !! "x.y.Name" = Some "Logic".
Proof.
  destruct (other_ids_untouched sound {["x.y.Name" := "Logic"]}
              (pb.mkClass "x" "Algebra" "Fall") (pb.mkGetRequest "x.y" ""))
    as (r1 & r2 & r3 & H1 & H2 & H3 & Hall); [discriminate|].
  exists r1, r2, r3. split_and!; [done..| |].
  - apply (Hall (db_after r1)). left.
  - apply (Hall (db_after r3)). right. right. left.
Defined.

(** ** How the methods compose *)

Lemma remove_put R db :
  db !! (pb.Id R +:+ ".Name") = None →
  db !! (pb.Id R +:+ ".Semester") = None →
  remove (pb.Id R) (put R db) = db.
Proof.
  intros HN HS. unfold remove, put. apply map_eq. intros k.
  rewrite !lookup_delete, !lookup_insert.
  repeat case_decide; subst; by rewrite ?HN, ?HS.
Qed.

Lemma remove_absent id db :
  db !! (id +:+ ".Name") = None → db !! (id +:+ ".Semester") = None →
  remove id db = db.
Proof.
  intros HN HS. unfold remove.
  rewrite (delete_id db) by done. by apply delete_id.
Qed.

(** X6. [Create] of a record whose keys the database does not hold and then
    [Delete] of it gives back the database as it was, the engine serving
    the calls of the two methods. *)
Theorem Create_then_Delete (F : faults) (db : DB) (R : pb.Class) :
  db !! (pb.Id R +:+ ".Name") = None →
  db !! (pb.Id R +:+ ".Semester") = None →
  serves F (put_calls R ++ Delete_calls (pb.Id R)) →
  ∃ r1 r2,
    server.Create F db R = Returned r1 ∧
    server.Delete F (db_after r1) R = Returned r2 ∧
    db_after r2 = db.
Proof.
  intros HN HS [Hp Hd]%serves_app.
  destruct (Create_served F db R Hp) as [l1 H1].
  destruct (Delete_served F (put R db) R Hd) as [l2 H2].
  eexists _, _. split_and!; [exact H1|exact H2|]. simpl.
  by apply (remove_put R db).
Qed.

Lemma Create_then_Delete_witness :
  ∃ r1 r2,
    server.Create sound {["b.Name" := "Biology"]} (pb.mkClass "a" "Algebra" "Fall") =
      Returned r1 ∧
    server.Delete sound (db_after r1) (pb.mkClass "a" "Algebra" "Fall") = Returned r2 ∧
    db_after r2 = {["b.Name" := "Biology"]}.
Proof.
  apply (Create_then_Delete sound {["b.Name" := "Biology"]} (pb.mkClass "a" "Algebra" "Fall")).
  - reflexivity.
  - reflexivity.
  - apply serves_sound.
Defined.

Lemma put_overwrites R R' db : pb.Id R = pb.Id R' → put R' (put R db) = put R' db.
Proof.
  intros Hid. unfold put. rewrite Hid. apply map_eq. intros k.
  rewrite !lookup_insert. repeat case_decide; done.
Qed.

(** X7. The last write wins, whole: after [Create] of a record and then
    [Update] with another record of the same id, the database is the one
    that [Update] alone leaves; nothing of the first record is kept,
    whether or not the first write was committed. *)
Theorem Update_overwrites (F : faults) (db : DB) (R R' : pb.Class) :
  pb.Id R = pb.Id R' →
  serves F (put_calls R') →
  ∃ r1 r2 r3,
    server.Create F db R = Returned r1 ∧
    server.Update F (db_after r1) R' = Returned r2 ∧
    server.Update F db R' = Returned r3 ∧
    db_after r2 = db_after r3 ∧
    db_after r2 = put R' db.
Proof.
  intros Hid Hs.
  destruct (Create_Update_same F db R) as (d1 & l & Hd1 & Hc & _).
  destruct (Update_served F d1 R' Hs) as [l2 H2].
  destruct (Update_served F db R' Hs) as [l3 H3].
  eexists _, _, _. split_and!; [exact Hc|exact H2|exact H3|..]; simpl.
  - destruct Hd1 as [->| ->]; [by apply put_overwrites|done].
  - destruct Hd1 as [->| ->]; [by apply put_overwrites|done].
Qed.

Lemma Update_overwrites_witness :
  ∃ r1 r2 r3,
    server.Create sound ∅ (pb.mkClass "a" "Algebra" "Fall") = Returned r1 ∧
    server.Update sound (db_after r1) (pb.mkClass "a" "Analysis" "Spring") = Returned r2 ∧
    server.Update sound ∅ (pb.mkClass "a" "Analysis" "Spring") = Returned r3 ∧
    db_after r2 = db_after r3 ∧
    db_after r2 = put (pb.mkClass "a" "Analysis" "Spring") ∅.
Proof.
  apply (Update_overwrites sound ∅ (pb.mkClass "a" "Algebra" "Fall")
           (pb.mkClass "a" "Analysis" "Spring")).
  - reflexivity.
  - apply serves_sound.
Defined.

(** X8. [Delete] of a record the database does not hold changes nothing
    and returns a nil error, whatever the engine does; and a second
    [Delete] of the same record leaves what the first left. *)
Theorem Delete_absent_and_again (F : faults) (db : DB) (R : pb.Class) :
  (db !! (pb.Id R +:+ ".Name") = None → db !! (pb.Id R +:+ ".Semester") = None →
   ∃ r, server.Delete F db R = Returned r ∧ err r = None ∧ db_after r = db) ∧
  (∃ r1 r2, server.Delete F db R = Returned r1 ∧
            server.Delete F (db_after r1) R = Returned r2 ∧
            db_after r2 = db_after r1).
Proof.
  assert (∀ d, ∃ r, server.Delete F d R = Returned r ∧ err r = None ∧
                    ((serves F (Delete_calls (pb.Id R)) ∧ db_after r = remove (pb.Id R) d) ∨
                     (¬ serves F (Delete_calls (pb.Id R)) ∧ db_after r = d))) as Hstep.
  { intros d. unfold server.Delete.
    destruct (Delete_txn_result F d R) as [[Hs ->]|[Hs [e ->]]]; simpl; eauto 10. }
  split.
  - intros HN HS. destruct (Hstep db) as (r & Hr & He & Hd).
    exists r. split_and!; [done..|].
    destruct Hd as [[_ ->]|[_ ->]]; [by apply remove_absent|done].
  - destruct (Hstep db) as (r1 & H1 & _ & Hd1).
    destruct (Hstep (db_after r1)) as (r2 & H2 & _ & Hd2).
    exists r1, r2. split_and!; [done..|].
    destruct Hd1 as [[Hs Hd1]|[Hs Hd1]], Hd2 as [[Hs' Hd2]|[Hs' Hd2]]; try done.
    rewrite Hd2, Hd1. apply remove_absent; unfold remove.
    + rewrite lookup_delete_ne by (symmetry; apply key_Name_Semester).
      apply lookup_delete_eq.
    + apply lookup_delete_eq.
Qed.

Lemma Delete_absent_and_again_witness :
  ∃ r, server.Delete sound {["b.Name" := "Biology"]} (pb.mkClass "a" "" "") = Returned r ∧
       err r = None ∧ db_after r = {["b.Name" := "Biology"]}.
Proof.
  apply (Delete_absent_and_again sound {["b.Name" := "Biology"]} (pb.mkClass "a" "" ""));
    reflexivity.
Defined.

(** ** The databases of the service hold whole records *)

Lemma whole_empty : whole ∅.
Proof. intros k [v Hk]. by rewrite lookup_empty in Hk. Qed.

Lemma whole_put R db : whole db → whole (put R db).
Proof.
  intros Hw k Hk. unfold put in *.
  assert (is_Some (<[pb.Id R +:+ ".Semester":=pb.Semester R]>
                     (<[pb.Id R +:+ ".Name":=pb.Name R]> db) !! (pb.Id R +:+ ".Name")) ∧
          is_Some (<[pb.Id R +:+ ".Semester":=pb.Semester R]>
                     (<[pb.Id R +:+ ".Name":=pb.Name R]> db) !! (pb.Id R +:+ ".Semester")))
    as [HN HS].
  { rewrite !lookup_insert_is_Some'. auto. }
  apply lookup_insert_is_Some' in Hk as [<-|Hk]; [by exists (pb.Id R); auto|].
  apply lookup_insert_is_Some' in Hk as [<-|Hk]; [by exists (pb.Id R); auto|].
  destruct (Hw k Hk) as (id & Hid & HN' & HS').
  exists id. rewrite !lookup_insert_is_Some'. auto.
Qed.

Lemma whole_remove id db : whole db → whole (remove id db).
Proof.
  intros Hw k Hk. unfold remove in *.
  apply lookup_delete_is_Some in Hk as [HkS Hk].
  apply lookup_delete_is_Some in Hk as [HkN Hk].
  destruct (Hw k Hk) as (id' & Hid & HN' & HS').
  assert (id' ≠ id) as Hne by (intros ->; by destruct Hid as [->| ->]).
  exists id'. split; [done|].
  destruct (lookup_remove_other id db id' Hne) as [EN ES]. unfold remove in *.
  by rewrite EN, ES.
Qed.

(** X9. Every database the service produces from its empty start holds
    whole records only, whatever the engine does: each key is the Name key
    or the Semester key of an id and both keys of that id are stored.  No
    sequence of calls leaves a record with one field. *)
Theorem reachable_whole (F : faults) (db : DB) : reachable F db → whole db.
Proof.
  induction 1 as [|db R r _ IH Hr|db R r _ IH Hr|db R r _ IH Hr].
  - apply whole_empty.
  - destruct (Create_Update_same F db R) as (db' & l & Hdb & Hc & _).
    rewrite Hc in Hr. simplify_eq/=. destruct Hdb as [->| ->]; [by apply whole_put|done].
  - destruct (Create_Update_same F db R) as (db' & l & Hdb & _ & Hu).
    rewrite Hu in Hr. simplify_eq/=. destruct Hdb as [->| ->]; [by apply whole_put|done].
  - destruct (Delete_after F db R r Hr) as [-> | ->]; [|done].
    by apply (whole_remove (pb.Id R)).
Qed.

Lemma reachable_whole_witness :
  whole (put (pb.mkClass "a" "Algebra" "Fall") ∅).
Proof.
  destruct (Create_served sound ∅ (pb.mkClass "a" "Algebra" "Fall") (serves_sound _))
    as [l Hc].
  apply (reachable_whole sound).
  apply (reach_Create sound ∅ (pb.mkClass "a" "Algebra" "Fall") _ (reach_open sound) Hc).
Defined.

Lemma whole_well_keyed db : whole db → well_keyed db.
Proof.
  intros Hw k Hk. destruct (Hw k Hk) as (id & [->| ->] & _); apply has_delim_append.
Qed.

(** ** List *)

(** X10. On a database whose keys contain the separator and whose values
    the engine reads, [List] returns, with a nil error and the database as
    it was, one record for each id that a stored key splits to and no
    other, no id twice; the name and the semester of a record are the
    values of the Name key and of the Semester key of its id, empty where
    the key is not stored. *)
Theorem List_records (F : faults) (db : DB) (in_ : pb.ListRequest) :
  well_keyed db →
  serves F (List_calls db) →
  ∃ r cs,
    server.List F db in_ = Returned r ∧
    resp r = pb.mkClasses cs ∧ err r = None ∧ db_after r = db ∧
    NoDup (pb.Id <$> cs) ∧
    (∀ id, id ∈ pb.Id <$> cs ↔
           ∃ k param, is_Some (db !! k) ∧ decode k = Some (id, param)) ∧
    (∀ c, c ∈ cs →
          pb.Name c = default "" (db !! (pb.Id c +:+ ".Name")) ∧
          pb.Semester c = default "" (db !! (pb.Id c +:+ ".Semester"))).
Proof.
  intros Hwk Hs.
  destruct (List_served F db in_ Hwk Hs) as (cs & HL & Hnd & Hids & Hrec).
  eexists _, cs. split_and!; [exact HL|done..|].
  intros c Hc. rewrite (Hrec c Hc) at 1 3. done.
Qed.

Lemma List_records_witness :
  ∃ r cs,
    server.List sound {["a.Semester" := "Fall"]} pb.mkListRequest = Returned r ∧
    resp r = pb.mkClasses cs ∧
    (∀ c, c ∈ cs →
          pb.Name c = default "" (({["a.Semester" := "Fall"]} : DB) !! (pb.Id c +:+ ".Name")) ∧
          pb.Semester c =
            default "" (({["a.Semester" := "Fall"]} : DB) !! (pb.Id c +:+ ".Semester"))).
Proof.
  destruct (List_records sound {["a.Semester" := "Fall"]} pb.mkListRequest)
    as (r & cs & HL & Hr & _ & _ & _ & _ & Hrec).
  - intros k [v Hk]. apply lookup_singleton_Some in Hk as [<- _]. reflexivity.
  - apply serves_sound.
  - exists r, cs. split_and!; [exact HL|exact Hr|exact Hrec].
Defined.

Lemma List_item_ok F db vs k v :
  has_delim k = true → bounded vs → F (ItemValue k) = None →
  ∃ vs', bounded vs' ∧ List_item F (k, v) (db, vs) = Ok (db, vs') ().
Proof.
  intros Hk Hb HF. rewrite List_item_decode.
  destruct (decode_is_Some k Hk) as [[id param] ->].
  destruct (placeholder_bounded db vs id Hb) as (index & vs1 & Hp & Hb1 & Hi).
  cbv [mbind Tx_bind]. rewrite Hp. unfold Value. simpl. rewrite HF.
  destruct (set_field_bounded db vs1 index (λ c, pb.with_Name c v) Hb1 Hi)
    as (vsN & HN & HbN).
  destruct (set_field_bounded db vs1 index (λ c, pb.with_Semester c v) Hb1 Hi)
    as (vsS & HS & HbS).
  repeat case_decide; eauto.
Qed.

Lemma for_each_panics F db items :
  Forall (λ item, F (ItemValue (Key item)) = None) items →
  Exists (λ item, has_delim (Key item) = false) items →
  ∀ vs, bounded vs →
  for_each items (List_item F) (db, vs) = Panic "slice bounds out of range".
Proof.
  induction 1 as [|[k v] items HF _ IH]; intros Hex vs Hb.
  - by apply Exists_nil in Hex.
  - cbn [for_each]. cbv [mbind Tx_bind].
    destruct (has_delim k) eqn:Hk.
    + destruct (List_item_ok F db vs k v Hk Hb HF) as (vs' & Hb' & ->).
      apply IH; [|done]. apply Exists_cons in Hex as [Hex|Hex]; [|done].
      simpl in Hex. congruence.
    + by rewrite List_item_decode, decode_None.
Qed.

(** X11. When the engine reads the values, [List] panics, with "slice
    bounds out of range", exactly when the database holds a key without
    the separator; it returns a response otherwise. *)
Theorem List_panics_iff (F : faults) (db : DB) (in_ : pb.ListRequest) :
  serves F (List_calls db) →
  (server.List F db in_ = Panicked "slice bounds out of range" ↔
   ∃ k, is_Some (db !! k) ∧ has_delim k = false) ∧
  ((∃ r, server.List F db in_ = Returned r) ↔ well_keyed db).
Proof.
  intros Hs.
  assert (Forall (λ item, F (ItemValue (Key item)) = None) (scan db)) as HF.
  { apply Forall_forall. intros [k v] Hkv%scan_elem_of.
    apply Hs. unfold List_calls. apply list_elem_of_fmap.
    exists (k, v). split; [done|]. by apply elem_of_map_to_list. }
  assert ((∃ k, is_Some (db !! k) ∧ has_delim k = false) →
          server.List F db in_ = Panicked "slice bounds out of range") as Hpanic.
  { intros (k & [v Hk] & Hnd).
    unfold server.List, View, List_txn.
    cbv [mbind mret Tx_bind Tx_ret vars assign]. simpl.
    rewrite (for_each_panics F db (scan db) HF); [done| |by intros id i].
    apply Exists_exists. exists (k, v). split; [by apply scan_elem_of|done]. }
  assert (well_keyed db ∨ ∃ k, is_Some (db !! k) ∧ has_delim k = false) as Hdec.
  { destruct (decide (Forall (λ item : Item, has_delim (Key item) = true) (scan db)))
      as [Hall|Hex].
    - left. intros k [v Hk]. rewrite Forall_forall in Hall.
      by apply (Hall (k, v)), scan_elem_of.
    - right. apply not_Forall_Exists in Hex; [|apply _].
      apply Exists_exists in Hex as ([k v] & Hkv%scan_elem_of & Hnd).
      exists k. split; [by exists v|]. simpl in Hnd. by destruct (has_delim k). }
  split; split.
  - intros HL. destruct Hdec as [Hwk|Hex]; [|done].
    destruct (List_suppresses F db in_ Hwk) as (r & Hr & _). congruence.
  - done.
  - intros [r Hr]. destruct Hdec as [Hwk|Hex]; [done|].
    rewrite (Hpanic Hex) in Hr. discriminate.
  - intros Hwk. destruct (List_suppresses F db in_ Hwk) as (r & Hr & _). eauto.
Qed.

Lemma List_panics_iff_witness :
  server.List sound {["a.Name" := "Algebra"; "abc" := "v"]} pb.mkListRequest =
    Panicked "slice bounds out of range".
Proof.
  apply (List_panics_iff sound {["a.Name" := "Algebra"; "abc" := "v"]} pb.mkListRequest).
  - apply serves_sound.
  - exists "abc". split; [by eexists|reflexivity].
Defined.

(** ** List and Get *)

Lemma decode_Name id : decode (id +:+ ".Name") = Some (id, "Name").
Proof. by apply (decode_append id "Name"). Qed.

Lemma decode_Semester id : decode (id +:+ ".Semester") = Some (id, "Semester").
Proof. by apply (decode_append id "Semester"). Qed.

Lemma reads_List_calls F db : reads F → serves F (List_calls db).
Proof.
  intros HF c. unfold List_calls. rewrite list_elem_of_fmap.
  intros (item & -> & _). apply HF.
Qed.

Lemma reads_sound : reads sound.
Proof. by intros k. Qed.

(** What [Get] answers when the engine serves the reads: the record of
    the id when the Name key is stored, the empty record when it is not. *)
Lemma Get_reads F db in_ :
  reads F →
  answer (server.Get F db in_) =
  Some (match db !! (pb.GetRequest_Id in_ +:+ ".Name") with
        | Some n => record_of db (pb.GetRequest_Id in_)
        | None => pb.mkClass (pb.GetRequest_Id in_) "" ""
        end, None).
Proof.
  intros HF. destruct (Get_cases F db in_) as (r & -> & He & _ & Hr). simpl in *.
  rewrite He. f_equal. f_equal. unfold record_of.
  destruct (HF (pb.GetRequest_Id in_ +:+ ".Name")) as [H1 H2].
  destruct (HF (pb.GetRequest_Id in_ +:+ ".Semester")) as [H3 H4].
  rewrite H1, H2, H3, H4 in Hr.
  destruct (db !! (pb.GetRequest_Id in_ +:+ ".Name")); [|done].
  by destruct (db !! (pb.GetRequest_Id in_ +:+ ".Semester")).
Qed.

(** X12. On a database of whole records (every database the service
    produced is one) and with an engine that serves the reads, [List] and
    [Get] agree: [Get] of the id of a record that [List] returns answers
    that record, and [Get] of an id that [List] does not return answers the
    record with empty name and semester. *)
Theorem List_Get_agree (F : faults) (db : DB) (in_ : pb.ListRequest) :
  whole db →
  reads F →
  ∃ r cs,
    server.List F db in_ = Returned r ∧
    resp r = pb.mkClasses cs ∧
    (∀ c nm, c ∈ cs →
       answer (server.Get F db (pb.mkGetRequest (pb.Id c) nm)) = Some (c, None)) ∧
    (∀ id nm, id ∉ pb.Id <$> cs →
       answer (server.Get F db (pb.mkGetRequest id nm)) = Some (pb.mkClass id "" "", None)).
Proof.
  intros Hw HF.
  destruct (List_served F db in_ (whole_well_keyed db Hw) (reads_List_calls F db HF))
    as (cs & HL & Hnd & Hids & Hrec).
  eexists _, cs. split_and!; [exact HL|done|..].
  - intros c nm Hc. rewrite (Get_reads F db _ HF). simpl.
    assert (pb.Id c ∈ pb.Id <$> cs) as Hin by (apply list_elem_of_fmap; eauto).
    apply Hids in Hin as (k & param & Hk & Hd).
    destruct (Hw k Hk) as (id0 & Hk0 & [n HN] & HS).
    assert (id0 = pb.Id c) as ->.
    { destruct Hk0 as [->| ->]; rewrite ?decode_Name, ?decode_Semester in Hd; congruence. }
    rewrite HN. by rewrite <- (Hrec c Hc).
  - intros id nm Hid. rewrite (Get_reads F db _ HF). simpl.
    destruct (db !! (id +:+ ".Name")) as [n|] eqn:HN; [|done].
    destruct Hid. apply Hids. exists (id +:+ ".Name"), "Name".
    split; [by rewrite HN|apply decode_Name].
Qed.

Lemma List_Get_agree_witness :
  ∃ r cs,
    server.List sound (put (pb.mkClass "a" "Algebra" "Fall") ∅) pb.mkListRequest =
      Returned r ∧
    resp r = pb.mkClasses cs ∧
    (∀ c nm, c ∈ cs →
       answer (server.Get sound (put (pb.mkClass "a" "Algebra" "Fall") ∅)
                 (pb.mkGetRequest (pb.Id c) nm)) = Some (c, None)).
Proof.
  destruct (List_Get_agree sound (put (pb.mkClass "a" "Algebra" "Fall") ∅) pb.mkListRequest)
    as (r & cs & HL & Hr & Hin & _).
  - apply whole_put, whole_empty.
  - apply reads_sound.
  - exists r, cs. split_and!; [exact HL|exact Hr|exact Hin].
Defined.

(** X13. Where only the Semester key of an id is stored (a state that no
    call of the service leaves), [List] and [Get] differ: [List]
    returns the record of the id with the stored semester, and [Get]
    answers the record with empty name and empty semester, the lookup of
    the Name key having ended its transaction. *)
Theorem Get_hides_lone_Semester (F : faults) (db : DB) (id s nm : string)
    (in_ : pb.ListRequest) :
  well_keyed db →
  reads F →
  db !! (id +:+ ".Name") = None →
  db !! (id +:+ ".Semester") = Some s →
  answer (server.Get F db (pb.mkGetRequest id nm)) = Some (pb.mkClass id "" "", None) ∧
  ∃ r cs, server.List F db in_ = Returned r ∧ resp r = pb.mkClasses cs ∧
          pb.mkClass id "" s ∈ cs.
Proof.
  intros Hwk HF HN HS. split.
  - rewrite (Get_reads F db _ HF). simpl. by rewrite HN.
  - destruct (List_served F db in_ Hwk (reads_List_calls F db HF))
      as (cs & HL & Hnd & Hids & Hrec).
    eexists _, cs. split_and!; [exact HL|done|].
    assert (id ∈ pb.Id <$> cs) as (c & -> & Hc)%list_elem_of_fmap.
    { apply Hids. exists (id +:+ ".Semester"), "Semester".
      split; [by rewrite HS|apply decode_Semester]. }
    pose proof (Hrec c Hc) as Hcrec. unfold record_of in Hcrec.
    rewrite HN, HS in Hcrec. simpl in Hcrec. by rewrite <- Hcrec.
Qed.

Lemma Get_hides_lone_Semester_witness :
  answer (server.Get sound {["a.Semester" := "Fall"]} (pb.mkGetRequest "a" "")) =
    Some (pb.mkClass "a" "" "", None) ∧
  ∃ r cs, server.List sound {["a.Semester" := "Fall"]} pb.mkListRequest = Returned r ∧
          resp r = pb.mkClasses cs ∧ pb.mkClass "a" "" "Fall" ∈ cs.
Proof.
  apply (Get_hides_lone_Semester sound {["a.Semester" := "Fall"]} "a" "Fall" "").
  - intros k [v Hk]. apply lookup_singleton_Some in Hk as [<- _]. reflexivity.
  - apply reads_sound.
  - reflexivity.
  - reflexivity.
Defined.

(** X14. After [Create] of a record on a database whose keys contain the
    separator, [List] returns that record, and it is the only record of
    its id returned, the engine serving the writes and the reads. *)
Theorem Create_then_List (F : faults) (db : DB) (R : pb.Class) (in_ : pb.ListRequest) :
  well_keyed db →
  serves F (put_calls R) →
  reads F →
  ∃ r1 r2 cs,
    server.Create F db R = Returned r1 ∧
    server.List F (db_after r1) in_ = Returned r2 ∧
    resp r2 = pb.mkClasses cs ∧
    R ∈ cs ∧
    (∀ c, c ∈ cs → pb.Id c = pb.Id R → c = R) ∧
    NoDup (pb.Id <$> cs).
Proof.
  intros Hwk Hs HF.
  destruct (Create_served F db R Hs) as [l Hc].
  destruct (List_served F (put R db) in_ (well_keyed_put R db Hwk)
              (reads_List_calls F _ HF)) as (cs & HL & Hnd & Hids & Hrec).
  assert (record_of (put R db) (pb.Id R) = R) as HR.
  { unfold record_of, put.
    rewrite lookup_insert_ne, !lookup_insert_eq by (symmetry; apply key_Name_Semester).
    by destruct R. }
  assert (∀ c, c ∈ cs → pb.Id c = pb.Id R → c = R) as Huniq.
  { intros c Hin Hid. rewrite (Hrec c Hin), Hid. exact HR. }
  eexists _, _, cs. split_and!; [exact Hc|exact HL|done| |done|done].
  assert (pb.Id R ∈ pb.Id <$> cs) as (c & Hid & Hin)%list_elem_of_fmap.
  { apply Hids. exists (pb.Id R +:+ ".Name"), "Name". split.
    - unfold put. rewrite lookup_insert_ne, lookup_insert_eq
        by (symmetry; apply key_Name_Semester). eauto.
    - apply decode_Name. }
  by rewrite <- (Huniq c Hin (eq_sym Hid)).
Qed.

Lemma Create_then_List_witness :
  ∃ r1 r2 cs,
    server.Create sound {["b.Name" := "Biology"]} (pb.mkClass "a" "Algebra" "Fall") =
      Returned r1 ∧
    server.List sound (db_after r1) pb.mkListRequest = Returned r2 ∧
    resp r2 = pb.mkClasses cs ∧
    pb.mkClass "a" "Algebra" "Fall" ∈ cs.
Proof.
  destruct (Create_then_List sound {["b.Name" := "Biology"]}
              (pb.mkClass "a" "Algebra" "Fall") pb.mkListRequest)
    as (r1 & r2 & cs & H1 & H2 & H3 & H4 & _).
  - intros k [v Hk]. apply lookup_singleton_Some in Hk as [<- _]. reflexivity.
  - apply serves_sound.
  - apply reads_sound.
  - exists r1, r2, cs. split_and!; [exact H1|exact H2|exact H3|exact H4].
Defined.

(** X15. After a committed [Delete] of a record on a database of whole
    records, [List] returns no record of its id, and the records it
    returns are the records of their ids in the database before the
    [Delete]. *)
Theorem Delete_then_List (F : faults) (db : DB) (R : pb.Class) (in_ : pb.ListRequest) :
  whole db →
  serves F (Delete_calls (pb.Id R)) →
  reads F →
  ∃ r1 r2 cs,
    server.Delete F db R = Returned r1 ∧
    server.List F (db_after r1) in_ = Returned r2 ∧
    resp r2 = pb.mkClasses cs ∧
    (pb.Id R ∉ pb.Id <$> cs) ∧
    (∀ c, c ∈ cs → c = record_of db (pb.Id c)).
Proof.
  intros Hw Hs HF.
  destruct (Delete_served F db R Hs) as [l Hd]. fold (remove (pb.Id R) db) in Hd.
  pose proof (whole_remove (pb.Id R) db Hw) as Hw'.
  destruct (List_served F (remove (pb.Id R) db) in_ (whole_well_keyed _ Hw')
              (reads_List_calls F _ HF)) as (cs & HL & Hnd & Hids & Hrec).
  assert (pb.Id R ∉ pb.Id <$> cs) as Hnot.
  { intros (k & param & Hk & Hdec)%Hids.
    destruct (Hw' k Hk) as (id0 & Hk0 & [n HN] & _).
    assert (id0 = pb.Id R) as ->.
    { destruct Hk0 as [->| ->]; rewrite ?decode_Name, ?decode_Semester in Hdec;
        congruence. }
    unfold remove in HN.
    rewrite lookup_delete_ne, lookup_delete_eq in HN
      by (symmetry; apply key_Name_Semester). done. }
  eexists _, _, cs. split_and!; [exact Hd|exact HL|done|done|].
  intros c Hc. rewrite (Hrec c Hc) at 1. unfold record_of.
  assert (pb.Id c ≠ pb.Id R) as Hne.
  { intros Heq. apply Hnot. rewrite <- Heq. apply list_elem_of_fmap. eauto. }
  destruct (lookup_remove_other (pb.Id R) db (pb.Id c) Hne) as [-> ->]. done.
Qed.

Lemma Delete_then_List_witness :
  ∃ r1 r2 cs,
    server.Delete sound (put (pb.mkClass "a" "Algebra" "Fall") ∅) (pb.mkClass "a" "" "") =
      Returned r1 ∧
    server.List sound (db_after r1) pb.mkListRequest = Returned r2 ∧
    resp r2 = pb.mkClasses cs ∧
    "a" ∉ (pb.Id <$> cs).
Proof.
  destruct (Delete_then_List sound (put (pb.mkClass "a" "Algebra" "Fall") ∅)
              (pb.mkClass "a" "" "") pb.mkListRequest)
    as (r1 & r2 & cs & H1 & H2 & H3 & H4 & _).
  - apply whole_put, whole_empty.
  - apply serves_sound.
  - apply reads_sound.
  - exists r1, r2, cs. split_and!; [exact H1|exact H2|exact H3|exact H4].
Defined.

(** ** List when the engine fails *)

(** X16. Whatever the engine does, what [List] returns on a database whose
    keys contain the separator is sound: no id twice; the id of every
    record is the id of a stored key; the name of every record is empty or
    the value of the Name key of its id, and its semester is empty or the
    value of the Semester key of its id.  A failed read cuts the list
    short and leaves fields empty; it puts no wrong value in a record. *)
Theorem List_partial (F : faults) (db : DB) (in_ : pb.ListRequest) :
  well_keyed db →
  ∃ r cs,
    server.List F db in_ = Returned r ∧
    resp r = pb.mkClasses cs ∧ err r = None ∧ db_after r = db ∧
    NoDup (pb.Id <$> cs) ∧
    ∀ c, c ∈ cs →
      (∃ k param, is_Some (db !! k) ∧ decode k = Some (pb.Id c, param)) ∧
      (pb.Name c = "" ∨ db !! (pb.Id c +:+ ".Name") = Some (pb.Name c)) ∧
      (pb.Semester c = "" ∨ db !! (pb.Id c +:+ ".Semester") = Some (pb.Semester c)).
Proof.
  intros Hwk.
  destruct (for_each_partial F db (scan db) (scan_well_keyed db Hwk) _ _ List_inv_init)
    as (vs & P & Hrun & HP & I1 & I2 & I3).
  assert (∃ r, server.List F db in_ = Returned r ∧ resp r = pb.mkClasses (Classes vs) ∧
               err r = None ∧ db_after r = db) as (r & HL & Hr & He & Hdb).
  { unfold server.List, View, List_txn.
    cbv [mbind mret Tx_bind Tx_ret vars assign]. simpl.
    destruct Hrun as [->|[e ->]]; by eexists. }
  exists r, (Classes vs). split_and!; [done..| |].
  - apply NoDup_alt. intros i j id. rewrite !list_lookup_fmap.
    intros (c & Hc & ->)%fmap_Some (c' & Hc' & Hid)%fmap_Some.
    assert (classMap vs !! pb.Id c = Some i) as Hi by (apply I1; eauto).
    assert (classMap vs !! pb.Id c = Some j) as Hj by (apply I1; eauto).
    congruence.
  - intros c (i & Hc)%list_elem_of_lookup.
    assert (∀ k v, foldl (λ m item, <[item.1:=item.2]> m) (∅ : DB) P !! k = Some v →
                   db !! k = Some v) as Hsub.
    { intros k v Hkv%foldl_insert_lookup. by apply scan_elem_of, HP. }
    split_and!.
    + assert (is_Some (classMap vs !! pb.Id c)) as Hm
        by (exists i; apply I1; eauto).
      apply I2 in Hm as (k & param & [[? Hs]|Hin] & Hd).
      { by rewrite lookup_empty in Hs. }
      apply list_elem_of_fmap in Hin as ([k' v] & -> & Hkv%scan_elem_of).
      exists k', param. split; [by exists v|done].
    + rewrite (I3 i c Hc) at 1 3. unfold record_of. simpl.
      destruct (foldl _ _ P !! (pb.Id c +:+ ".Name")) as [n|] eqn:Hn; [|by left].
      right. by apply Hsub.
    + rewrite (I3 i c Hc) at 1 3. unfold record_of. simpl.
      destruct (foldl _ _ P !! (pb.Id c +:+ ".Semester")) as [n|] eqn:Hn; [|by left].
      right. by apply Hsub.
Qed.

(** The engine of the witness fails on every read of a value: [List]
    returns a response all the same. *)
Lemma List_partial_witness :
  let F : faults := λ c,
    match c with
    | ItemValue _ => Some "read error"
    | _ => None
    end in
  ∃ r cs,
    server.List F {["a.Name" := "Algebra"]} pb.mkListRequest = Returned r ∧
    resp r = pb.mkClasses cs ∧ err r = None ∧
    NoDup (pb.Id <$> cs).
Proof.
  intros F.
  destruct (List_partial F {["a.Name" := "Algebra"]} pb.mkListRequest)
    as (r & cs & HL & Hr & He & _ & Hnd & _).
  - intros k [v Hk]. apply lookup_singleton_Some in Hk as [<- _]. reflexivity.
  - exists r, cs. split_and!; [exact HL|exact Hr|exact He|exact Hnd].
Defined.
